(** * The Cython PIE application frame (analytical_engine/frame/cython_pie_app_frame.cc)

    The frame is the library that the analytical engine loads for a Python PIE
    application.  It exports three entry points, [CreateWorker], [DeleteWorker]
    and [Query], on top of the helpers [AppInit] and [CreateApp] of namespace
    [python_grape].

    The frame is stateful C++: it drives the process-global embedded CPython
    runtime, allocates a [worker_handler_t] on the heap, shares the worker
    through a [std::shared_ptr], and reports through out-parameters.  The
    embedding threads an explicit [World] through a small state-and-failure
    monad; every call that leaves the frame (CPython, the App, the Worker, the
    AppInvoker, the wrapper builder) is also logged in a trace, so that the order
    of the calls can be stated. *)

From stdpp Require Import base option list strings gmap.
From Stdlib Require Import ZArith Lia.

Local Open Scope Z_scope.

(** ** The embedded CPython runtime, as far as [AppInit] drives it *)

Module Py.

(** The runtime is one per process.  [epoch] counts the interpreters that have
    been brought up so far: two states with different epochs run different
    interpreters. *)
Record env := Env {
  initialized : bool;
  epoch : nat;
  inittab : list string;
  modules : list string
}.

Definition fresh_process : env :=
  {| initialized := false; epoch := 0%nat; inittab := []; modules := [] |}.

Definition Py_IsInitialized (e : env) : bool := initialized e.

(** [Py_Finalize] destroys the interpreter and everything loaded in it; it does
    nothing when no interpreter is up. *)
Definition Py_Finalize (e : env) : env :=
  if initialized e
  then {| initialized := false; epoch := epoch e; inittab := inittab e; modules := [] |}
  else e.

(** [Py_Initialize] brings up a new interpreter; it does nothing when one is up. *)
Definition Py_Initialize (e : env) : env :=
  if initialized e
  then e
  else {| initialized := true; epoch := S (epoch e); inittab := inittab e; modules := [] |}.

(** [PyImport_AppendInittab] extends the table of built-in modules and returns
    0, or returns -1 and leaves the table alone.  Which of the two happens is
    decided by the runtime (it fails when the table cannot grow), so the value
    that the call returns is an input [err] of the model. *)
Definition PyImport_AppendInittab (name : string) (err : Z) (e : env) : env :=
  if err <? 0 then e
  else {| initialized := initialized e; epoch := epoch e;
          inittab := name :: inittab e; modules := modules e |}.

(** [PyImport_ImportModule] loads a module into the running interpreter.  The
    frame drops the returned object, so only the effect on the runtime is kept. *)
Definition PyImport_ImportModule (name : string) (e : env) : env :=
  if initialized e && bool_decide (name ∈ inittab e)
  then {| initialized := true; epoch := epoch e;
          inittab := inittab e; modules := name :: modules e |}
  else e.

(** The number of interpreters that are up. *)
Definition active_interpreters (e : env) : nat :=
  if initialized e then 1%nat else 0%nat.

End Py.

(** ** Calls that leave the frame *)

Inductive Event :=
| EvAppendInittab (name : string) (err : Z)
| EvPrintf (msg : string)
| EvPyFinalize
| EvPyInitialize
| EvImportModule (name : string)
| EvSetInitFunction
| EvSetPEvalFunction
| EvSetIncEvalFunction
| EvMakeApp
| EvNewHandler (h : Z)
| EvAppCreateWorker (p : Z)
| EvWorkerInit (p : Z)
| EvWorkerFinalize (p : Z)
| EvWorkerReset (p : Z)
| EvDeleteHandler (h : Z)
| EvAppInvokerQuery (p : Z)
| EvGetContext (p : Z)
| EvCtxWrapperBuild (key : string).

Global Instance Event_eq_dec : EqDecision Event.
Proof. solve_decision. Defined.

(** [bl::result<nullptr_t>]: a value, or an error object. *)
Inductive result (E : Type) :=
| Ok
| Err (e : E).
Global Arguments Ok {E}.
Global Arguments Err {E} e.

(** [if (!result)] *)
Definition failed {E} (r : result E) : bool :=
  match r with Ok => false | Err _ => true end.

(** Modelled from the spec: the lifecycle states of a worker (section 3,
    [Uninitialized -> Ready -> Evaluating -> Ready -> ... -> Finalized], and the
    poisoned terminal state of section 4.2).  The worker class is not part of
    the frame's file. *)
Inductive Lifecycle :=
| Uninitialized
| Ready
| Evaluating
| Poisoned
| Finalized.

Global Instance Lifecycle_eq_dec : EqDecision Lifecycle.
Proof. solve_decision. Defined.

(** The null pointer. *)
Definition NULL : Z := 0.

(** ** The build configuration

    The frame is compiled once per application: the graph type, the vertex and
    message data types and the module name are macros ([_GRAPH_TYPE],
    [_VD_TYPE], [_MD_TYPE], [_MODULE_NAME]), the three evaluation functions come
    from the generated header [_APP_HEADER], and the remaining types come from
    headers outside the frame.  One instance of [BuildConfig] is one such build. *)

Class BuildConfig := {
  (** [_GRAPH_TYPE], and [Context<_VD_TYPE, _MD_TYPE>] *)
  Fragment : Type;
  Ctx : Type;
  (** [grape::CommSpec], [grape::ParallelEngineSpec], [gs::rpc::QueryArgs] *)
  CommSpec : Type;
  ParallelEngineSpec : Type;
  QueryArgs : Type;
  (** [gs::IFragmentWrapper], [gs::IContextWrapper] *)
  FragWrapper : Type;
  CtxWrapper : Type;
  (** [QUOTE(_MODULE_NAME)] *)
  MODULE_NAME : string;
  (** the three functions that the Cython module of [_APP_HEADER] exports *)
  Init : Fragment → Ctx → Ctx;
  PEval : Fragment → Ctx → Ctx;
  IncEval : Fragment → Ctx → Ctx;
  (** the context that a newly constructed worker holds for its fragment *)
  new_context : Fragment → Ctx;
  (** [gs::CtxWrapperBuilder<context_t>::build] *)
  build : string → FragWrapper → Ctx → CtxWrapper
}.

(** ** The frame *)

Section Frame.

Context `{BuildConfig}.

(** The error object that a [bl::result] carries. *)
Context {Error : Type}.

Definition callback : Type := Fragment → Ctx → Ctx.

(** The trampolines [_Init], [_PEval] and [_IncEval] of namespace
    [python_grape]: each forwards to the module's function. *)
Definition _Init : callback := λ frag context, Init frag context.
Definition _PEval : callback := λ frag context, PEval frag context.
Definition _IncEval : callback := λ frag context, IncEval frag context.

(** Modelled from the spec: [gs::CythonPIEProgram<_VD_TYPE, _MD_TYPE>] holds
    three callback slots, one per phase (section 3); a slot is empty until its
    setter has run.  [apps/python_pie/cython_pie_program.h] is missing; the
    frame calls the three setters. *)
Record CythonPIEProgram := Program {
  init_func : option callback;
  peval_func : option callback;
  inceval_func : option callback
}.

Definition new_program : CythonPIEProgram :=
  {| init_func := None; peval_func := None; inceval_func := None |}.

Definition SetInitFunction (f : callback) (p : CythonPIEProgram) : CythonPIEProgram :=
  {| init_func := Some f; peval_func := peval_func p; inceval_func := inceval_func p |}.

Definition SetPEvalFunction (f : callback) (p : CythonPIEProgram) : CythonPIEProgram :=
  {| init_func := init_func p; peval_func := Some f; inceval_func := inceval_func p |}.

Definition SetIncEvalFunction (f : callback) (p : CythonPIEProgram) : CythonPIEProgram :=
  {| init_func := init_func p; peval_func := peval_func p; inceval_func := Some f |}.

(** All three slots hold a callback. *)
Definition all_bound (p : CythonPIEProgram) : bool :=
  bool_decide (is_Some (init_func p)) &&
  bool_decide (is_Some (peval_func p)) &&
  bool_decide (is_Some (inceval_func p)).

(** Modelled from the spec: [_APP_TYPE], that is
    [gs::PythonPIEApp<_GRAPH_TYPE, CythonPIEProgram<..>>], composes the Program
    it was constructed with (section 2).  [apps/python_pie/python_pie_app.h] is
    missing. *)
Record PythonPIEApp := App { program : CythonPIEProgram }.

(** Modelled from the spec: [_APP_TYPE::worker_t] owns one App bound to one
    Fragment, holds its communication-group membership and its parallelism
    configuration once Init has run, and has a Context (section 3).  The worker
    class is missing. *)
Record Worker := MkWorker {
  app : PythonPIEApp;
  fragment : Fragment;
  lifecycle : Lifecycle;
  comm : option (CommSpec * ParallelEngineSpec);
  context : Ctx
}.

(** Modelled from the spec: [_APP_TYPE::CreateWorker(app, fragment)] binds the
    App to the Fragment and materializes a worker object in the state
    [Uninitialized], with no communication group attached (section 4.2). *)
Definition App_CreateWorker (a : PythonPIEApp) (frag : Fragment) : Worker :=
  {| app := a; fragment := frag; lifecycle := Uninitialized;
     comm := None; context := new_context frag |}.

(** Modelled from the spec: [worker->Init(comm_spec, spec)] establishes the
    communication-group topology and the parallelism, [Uninitialized -> Ready];
    a second call leaves the effects of the first unchanged (section 4.2 and
    section 8). *)
Definition Worker_Init (cs : CommSpec) (ps : ParallelEngineSpec) (w : Worker) : Worker :=
  match lifecycle w with
  | Uninitialized =>
      {| app := app w; fragment := fragment w; lifecycle := Ready;
         comm := Some (cs, ps); context := context w |}
  | _ => w
  end.

(** Modelled from the spec: [worker->Finalize()] releases the communication
    group, from [Ready] or from the poisoned state, and ends in [Finalized]; on
    any other state it releases nothing (section 4.2). *)
Definition Worker_Finalize (w : Worker) : Worker :=
  match lifecycle w with
  | Ready | Poisoned =>
      {| app := app w; fragment := fragment w; lifecycle := Finalized;
         comm := None; context := context w |}
  | _ => w
  end.

(** [worker->GetContext()] *)
Definition GetContext (w : Worker) : Ctx := context w.

(** [gs::AppInvoker<_APP_TYPE>::Query(worker, query_args)]: it works on the
    worker and hands back a result object. *)
Variable AppInvoker_Query : Worker → QueryArgs → result Error * Worker.

(** [struct worker_handler { std::shared_ptr<worker_t> worker; }]: the pointer
    is null ([None]) or the address of a shared worker. *)
Record worker_handler_t := Handler { worker : option Z }.

(** What a [std::shared_ptr<worker_t>] points to: the worker and the number of
    shared pointers that own it. *)
Record shared_worker := Shared {
  use_count : nat;
  object : Worker
}.

(** The state of the process that the frame reads and writes. *)
Record World := MkWorld {
  py : Py.env;
  handlers : gmap Z worker_handler_t;
  workers : gmap Z shared_worker;
  trace : list Event
}.

Definition initial_world : World :=
  {| py := Py.fresh_process; handlers := ∅; workers := ∅; trace := [] |}.

(** *** State and failure

    A computation reads and writes the world and returns a value; [None] stands
    for undefined behaviour (a dangling or null pointer is dereferenced). *)
Definition M (A : Type) : Type := World → option (A * World).

Definition ret {A} (a : A) : M A := λ w, Some (a, w).

Definition bind {A B} (m : M A) (k : A → M B) : M B :=
  λ w, match m w with
       | Some (a, w') => k a w'
       | None => None
       end.

Definition undefined {A} : M A := λ _, None.

Definition emit (e : Event) : M unit :=
  λ w, Some (tt, {| py := py w; handlers := handlers w; workers := workers w;
                    trace := trace w ++ [e] |}).

Definition py_call (f : Py.env → Py.env) : M unit :=
  λ w, Some (tt, {| py := f (py w); handlers := handlers w; workers := workers w;
                    trace := trace w |}).

Definition py_read {A} (f : Py.env → A) : M A := λ w, Some (f (py w), w).

Definition set_handlers (hs : gmap Z worker_handler_t) : M unit :=
  λ w, Some (tt, {| py := py w; handlers := hs; workers := workers w; trace := trace w |}).

Definition set_workers (ws : gmap Z shared_worker) : M unit :=
  λ w, Some (tt, {| py := py w; handlers := handlers w; workers := ws; trace := trace w |}).

Definition get_handlers : M (gmap Z worker_handler_t) := λ w, Some (handlers w, w).

Definition get_workers : M (gmap Z shared_worker) := λ w, Some (workers w, w).

Local Instance M_ret : MRet M := @ret.
Local Instance M_bind : MBind M := λ A B k m, bind m k.

(** *** The heap of handlers and the store of shared workers *)

(** [new worker_handler_t]: a cell at an address that is not in use and is not
    null; its [worker] pointer starts out null. *)
Definition new_worker_handler : M Z :=
  hs ← get_handlers;
  let h := fresh ({[NULL]} ∪ dom hs) in
  set_handlers (<[h := Handler None]> hs);;
  emit (EvNewHandler h);;
  ret h.

(** [static_cast<worker_handler_t*>(worker_handler)->...]: reading through a
    pointer that is not a live handler is undefined. *)
Definition load_handler (h : Z) : M worker_handler_t :=
  hs ← get_handlers;
  match hs !! h with
  | Some v => ret v
  | None => undefined
  end.

(** A new shared worker, owned by the one pointer that is returned. *)
Definition make_shared_worker (obj : Worker) : M Z :=
  ws ← get_workers;
  let p := fresh ({[NULL]} ∪ dom ws) in
  set_workers (<[p := Shared 1 obj]> ws);;
  ret p.

(** A copy of a shared pointer: one more owner. *)
Definition shared_copy (p : option Z) : M unit :=
  match p with
  | None => ret tt
  | Some a =>
      ws ← get_workers;
      match ws !! a with
      | Some c => set_workers (<[a := Shared (S (use_count c)) (object c)]> ws)
      | None => undefined
      end
  end.

(** A shared pointer goes away: one owner less, and the worker is destroyed
    with its last owner. *)
Definition shared_release (p : option Z) : M unit :=
  match p with
  | None => ret tt
  | Some a =>
      ws ← get_workers;
      match ws !! a with
      | Some c =>
          match use_count c with
          | S (S n) => set_workers (<[a := Shared (S n) (object c)]> ws)
          | _ => set_workers (delete a ws)
          end
      | None => undefined
      end
  end.

(** [p->f(...)] for a member function that works on the worker in place; the
    call is logged as [ev]. *)
Definition worker_call (ev : Z → Event) (p : option Z) (f : Worker → Worker) : M unit :=
  match p with
  | None => undefined
  | Some a =>
      ws ← get_workers;
      match ws !! a with
      | Some c =>
          set_workers (<[a := Shared (use_count c) (f (object c))]> ws);;
          emit (ev a)
      | None => undefined
      end
  end.

(** [gs::AppInvoker<_APP_TYPE>::Query(worker, query_args)] on the shared worker. *)
Definition invoke (p : option Z) (query_args : QueryArgs) : M (result Error) :=
  match p with
  | None => undefined
  | Some a =>
      ws ← get_workers;
      match ws !! a with
      | Some c =>
          let '(r, obj) := AppInvoker_Query (object c) query_args in
          set_workers (<[a := Shared (use_count c) obj]> ws);;
          emit (EvAppInvokerQuery a);;
          ret r
      | None => undefined
      end
  end.

(** [worker->GetContext()] *)
Definition get_context (p : option Z) : M Ctx :=
  match p with
  | None => undefined
  | Some a =>
      ws ← get_workers;
      match ws !! a with
      | Some c => emit (EvGetContext a);; ret (GetContext (object c))
      | None => undefined
      end
  end.

(** [handler->worker = p], where the pointer on the right is a temporary that
    is moved in: the old pointee loses an owner, the new one keeps its count. *)
Definition assign_worker (h : Z) (p : option Z) : M unit :=
  old ← load_handler h;
  shared_release (worker old);;
  hs ← get_handlers;
  set_handlers (<[h := Handler p]> hs).

(** [handler->worker.reset()] *)
Definition reset_worker (h : Z) : M unit :=
  old ← load_handler h;
  shared_release (worker old);;
  hs ← get_handlers;
  set_handlers (<[h := Handler None]> hs);;
  match worker old with
  | Some a => emit (EvWorkerReset a)
  | None => ret tt
  end.

(** [delete handler]: the destructor drops the [worker] pointer, then the cell
    is returned to the heap. *)
Definition delete_handler (h : Z) : M unit :=
  old ← load_handler h;
  shared_release (worker old);;
  hs ← get_handlers;
  set_handlers (delete h hs);;
  emit (EvDeleteHandler h).

(** *** namespace python_grape *)

(** [void AppInit()], lines 99-118.  [err] is what [PyImport_AppendInittab]
    returns in this call. *)
Definition AppInit (err : Z) : M unit :=
  py_call (Py.PyImport_AppendInittab MODULE_NAME err);;
  emit (EvAppendInittab MODULE_NAME err);;
  if err <? 0 then
    emit (EvPrintf "Cannot initialize Python module...\n")
  else
    up ← py_read Py.Py_IsInitialized;
    (if up : bool then py_call Py.Py_Finalize;; emit EvPyFinalize else ret tt);;
    py_call Py.Py_Initialize;;
    emit EvPyInitialize;;
    py_call (Py.PyImport_ImportModule MODULE_NAME);;
    emit (EvImportModule MODULE_NAME).

(** [std::shared_ptr<_APP_TYPE> CreateApp()], lines 120-127. *)
Definition CreateApp (err : Z) : M PythonPIEApp :=
  AppInit err;;
  let program := new_program in
  let program := SetInitFunction _Init program in
  emit EvSetInitFunction;;
  let program := SetPEvalFunction _PEval program in
  emit EvSetPEvalFunction;;
  let program := SetIncEvalFunction _IncEval program in
  emit EvSetIncEvalFunction;;
  emit EvMakeApp;;
  ret (App program).

(** The program that [CreateApp] has built when it constructs the App. *)
Definition bound_program : CythonPIEProgram :=
  SetIncEvalFunction _IncEval (SetPEvalFunction _PEval (SetInitFunction _Init new_program)).

(** *** The exported entry points *)

(** [void* CreateWorker(fragment, comm_spec, spec)], lines 136-145. *)
Definition CreateWorker (err : Z) (fragment : Fragment) (comm_spec : CommSpec)
    (spec : ParallelEngineSpec) : M Z :=
  app ← CreateApp err;
  worker_handler ← new_worker_handler;
  p ← make_shared_worker (App_CreateWorker app fragment);
  emit (EvAppCreateWorker p);;
  assign_worker worker_handler (Some p);;
  handler ← load_handler worker_handler;
  worker_call EvWorkerInit (worker handler) (Worker_Init comm_spec spec);;
  ret worker_handler.

(** [void DeleteWorker(void* worker_handler)], lines 147-153. *)
Definition DeleteWorker (worker_handler : Z) : M unit :=
  handler ← load_handler worker_handler;
  worker_call EvWorkerFinalize (worker handler) Worker_Finalize;;
  reset_worker worker_handler;;
  delete_handler worker_handler.

(** [void Query(worker_handler, query_args, context_key, frag_wrapper,
    ctx_wrapper, wrapper_error)], lines 155-172.  The two reference parameters
    [ctx_wrapper] and [wrapper_error] come in with the caller's values and go
    out as the pair that is returned. *)
Definition Query (worker_handler : Z) (query_args : QueryArgs) (context_key : string)
    (frag_wrapper : FragWrapper) (ctx_wrapper : option CtxWrapper)
    (wrapper_error : result Error) : M (option CtxWrapper * result Error) :=
  handler ← load_handler worker_handler;
  let worker := worker handler in
  shared_copy worker;;
  result ← invoke worker query_args;
  if failed result then
    shared_release worker;;
    ret (ctx_wrapper, result)
  else if negb (String.eqb context_key EmptyString) then
    ctx ← get_context worker;
    emit (EvCtxWrapperBuild context_key);;
    shared_release worker;;
    ret (Some (build context_key frag_wrapper ctx), wrapper_error)
  else
    shared_release worker;;
    ret (ctx_wrapper, wrapper_error).

End Frame.

(** ** The AppInvoker and the error taxonomy

    [core/app/app_invoker.h] and [core/error.h] are not among the frame's
    sources.  The frame itself only tests the result of the AppInvoker and moves
    it to the caller; what the AppInvoker does with a worker is taken from the
    specification. *)

(** Modelled from the spec: the error kinds of section 7.  [core/error.h] is
    missing. *)
Inductive ErrorKind :=
| ConfigurationError
| CommunicationError
| ProgramError
| ArgumentError.

Global Instance ErrorKind_eq_dec : EqDecision ErrorKind.
Proof. solve_decision. Defined.

(** Modelled from the spec: an error is a structured value that carries a kind
    and a diagnostic message (section 7, propagation policy).  [core/error.h]
    is missing. *)
Record GSError := MkError {
  kind : ErrorKind;
  message : string
}.

Global Instance GSError_eq_dec : EqDecision GSError.
Proof. solve_decision. Defined.

Module AppInvoker.

Section Invoker.

Context `{BuildConfig}.

(** The evaluation work of one query on one worker: the PIE cycle of section
    4.2, run with the three bound callbacks on the worker's fragment and
    context, together with the peers of the communication group.  It hands back
    success or the error that a phase surfaced, and the context as the cycle
    left it. *)
Variable pie_cycle :
  callback → callback → callback → Fragment → QueryArgs → Ctx → result GSError * Ctx.

(** Modelled from the spec: the two configuration errors of a query, a missing
    callback binding and an operation on a worker that is not ready
    (section 7).  [core/error.h] is missing. *)
Definition unbound_slot : GSError :=
  {| kind := ConfigurationError; message := "a callback slot of the program is not bound" |}.

Definition not_ready : GSError :=
  {| kind := ConfigurationError; message := "the worker is not ready" |}.

(** Modelled from the spec: the callbacks of a program, when all three slots
    are bound (section 4.1).  [apps/python_pie/cython_pie_program.h] is
    missing. *)
Definition bound_callbacks (p : CythonPIEProgram) : option (callback * callback * callback) :=
  match init_func p, peval_func p, inceval_func p with
  | Some init, Some peval, Some inceval => Some (init, peval, inceval)
  | _, _, _ => None
  end.

(** Modelled from the spec: where a failed query leaves the worker (section 7).
    A communication error is fatal to the worker, the other kinds are
    recoverable and the worker returns to [Ready].  The worker class is
    missing. *)
Definition after_failure (e : GSError) : Lifecycle :=
  match kind e with
  | CommunicationError => Poisoned
  | _ => Ready
  end.

(** Modelled from the spec: [gs::AppInvoker<_APP_TYPE>::Query(worker, args)]
    (sections 4.1, 4.2, 4.3 and 8; [core/app/app_invoker.h] is missing).
    - A program with a slot that is not bound fails with a ConfigurationError
      before any evaluation work begins.
    - Query is valid only from [Ready]; on an uninitialized worker it fails
      with a ConfigurationError and leaves the worker unusable except for
      Finalize; on a finalized or poisoned worker it fails and changes nothing.
    - Otherwise the PIE cycle runs; a failure becomes a structured error, the
      context stays as the failed phase left it, and the state of the worker
      tells whether the failure was recoverable. *)
Definition Query (w : Worker) (args : QueryArgs) : result GSError * Worker :=
  match bound_callbacks (program (app w)) with
  | Some (init, peval, inceval) =>
      match lifecycle w with
      | Ready =>
          let '(r, ctx) := pie_cycle init peval inceval (fragment w) args (context w) in
          (r, {| app := app w; fragment := fragment w;
                 lifecycle := match r with Ok => Ready | Err e => after_failure e end;
                 comm := comm w; context := ctx |})
      | Uninitialized =>
          (Err not_ready,
           {| app := app w; fragment := fragment w; lifecycle := Poisoned;
              comm := comm w; context := context w |})
      | _ => (Err not_ready, w)
      end
  | None => (Err unbound_slot, w)
  end.

End Invoker.

End AppInvoker.

(** ** Sequences of calls into the frame *)

Section Runs.

Context `{BuildConfig}.

Variable pie_cycle :
  callback → callback → callback → Fragment → QueryArgs → Ctx → result GSError * Ctx.

(** One call of an exported entry point that returns. *)
Inductive frame_step : World → World → Prop :=
| step_CreateWorker err frag cs ps w h w' :
    CreateWorker err frag cs ps w = Some (h, w') →
    frame_step w w'
| step_Query h args key fw cw we w out w' :
    Query (AppInvoker.Query pie_cycle) h args key fw cw we w = Some (out, w') →
    frame_step w w'
| step_DeleteWorker h w w' :
    DeleteWorker h w = Some (tt, w') →
    frame_step w w'.

(** The worlds that a process reaches from its start through calls of the
    entry points. *)
Definition reachable (w : World) : Prop := rtc frame_step initial_world w.

(** Every shared worker runs a program with all three slots bound. *)
Definition programs_bound (w : World) : Prop :=
  ∀ p c, workers w !! p = Some c → all_bound (program (app (object c))) = true.

End Runs.

(** ** The PIE cycle of a communication group

    The superstep loop lives in the worker class and in the message manager,
    neither of which is among the frame's sources.  The group is modelled from
    section 4.2 (steps 1 to 5) and section 5 of the specification as a
    bulk-synchronous system: the partitions of a group move in lock-step from
    one superstep boundary to the next. *)

Module PIE.

Section Group.

Context {Frag VD MD : Type}.

(** Modelled from the spec: a cross-partition message, for a vertex owned by
    the peer partition [dest] (section 4.2, step 2).  The message manager is
    missing. *)
Record Message := Msg {
  dest : nat;
  payload : MD
}.

(** Modelled from the spec: the Context holds the per-vertex computation state
    and the pending cross-partition messages (section 3): the messages that
    came in for this superstep and the ones waiting to go out. *)
Record PIEContext := MkContext {
  vdata : gmap nat VD;
  incoming : list MD;
  outgoing : list Message
}.

(** The three callbacks of the Program. *)
Variables Init PEval IncEval : Frag → PIEContext → PIEContext.

(** Modelled from the spec: one partition of the communication group, that is
    one worker with its fragment and its context (section 5); [populated] says
    whether Init has run on the context, [rounds] counts the rounds of IncEval
    that the partition has run.  The worker class is missing. *)
Record Partition := MkPartition {
  frag : Frag;
  ctx : PIEContext;
  populated : bool;
  rounds : nat
}.

(** Modelled from the spec: within a superstep the order of delivery is not
    guaranteed (section 5).  A schedule fixes, per superstep and receiving
    partition, the order in which the transport delivers what was sent to that
    partition.  The transport is missing. *)
Definition Schedule : Type := nat → nat → list MD → list MD.

(** Modelled from the spec: the flag that one partition reports, zero pending
    outgoing messages (section 4.2, step 4). *)
Definition no_pending (p : Partition) : bool :=
  match outgoing (ctx p) with
  | [] => true
  | _ :: _ => false
  end.

(** Modelled from the spec: global quiescence, the AND over the per-partition
    flags (section 4.2, step 4 and the design rationale). *)
Definition quiescent (g : list Partition) : bool := forallb no_pending g.

(** Modelled from the spec: everything that the group has pending for
    partition [i], sender by sender (section 4.2, step 3). *)
Definition sent_to (i : nat) (g : list Partition) : list MD :=
  payload <$> filter (λ m, dest m = i) (mjoin ((λ p, outgoing (ctx p)) <$> g)).

(** Modelled from the spec: the exchange of step 3.  Each partition hands its
    pending messages to the transport and receives, in the order of the
    schedule, what its peers had pending for it. *)
Definition exchange (sch : Schedule) (k : nat) (g : list Partition) : list Partition :=
  imap (λ i p, {| frag := frag p;
                  ctx := {| vdata := vdata (ctx p);
                            incoming := sch k i (sent_to i g);
                            outgoing := [] |};
                  populated := populated p;
                  rounds := rounds p |}) g.

(** Modelled from the spec: IncEval runs locally on one partition, absorbs the
    incoming messages and possibly emits more (section 4.2, step 3). *)
Definition absorb (p : Partition) : Partition :=
  {| frag := frag p; ctx := IncEval (frag p) (ctx p);
     populated := populated p; rounds := S (rounds p) |}.

(** Modelled from the spec: one superstep (step 3).  The barrier is the
    boundary between the two maps: every partition has sent and received
    before any partition runs IncEval. *)
Definition superstep (sch : Schedule) (k : nat) (g : list Partition) : list Partition :=
  absorb <$> exchange sch k g.

(** The group after [n] more supersteps, starting with superstep [k]. *)
Fixpoint run (sch : Schedule) (k n : nat) (g : list Partition) : list Partition :=
  match n with
  | O => g
  | S n' => run sch (S k) n' (superstep sch k g)
  end.

(** Modelled from the spec: the superstep loop (steps 3 and 4).  The loop ends
    at the first superstep boundary at which the group is quiescent; [fuel]
    bounds the number of supersteps, and [None] says the bound was reached. *)
Fixpoint superstep_loop (sch : Schedule) (fuel k : nat) (g : list Partition)
    : option (list Partition) :=
  if quiescent g then Some g
  else match fuel with
       | O => None
       | S fuel' => superstep_loop sch fuel' (S k) (superstep sch k g)
       end.

(** Modelled from the spec: steps 1 and 2.  Init runs once, when the context
    is unpopulated, and PEval runs on local data. *)
Definition start (p : Partition) : Partition :=
  {| frag := frag p;
     ctx := PEval (frag p) (if populated p then ctx p else Init (frag p) (ctx p));
     populated := true;
     rounds := rounds p |}.

(** Modelled from the spec: the full PIE cycle that one Query drives on the
    group (section 4.2, steps 1 to 5). *)
Definition pie_cycle (sch : Schedule) (fuel : nat) (g : list Partition)
    : option (list Partition) :=
  superstep_loop sch fuel 0%nat (start <$> g).

(** The per-vertex values that a group holds. *)
Definition values (g : list Partition) : list (gmap nat VD) :=
  (λ p, vdata (ctx p)) <$> g.

End Group.

Global Arguments Message : clear implicits.
Global Arguments PIEContext : clear implicits.
Global Arguments Partition : clear implicits.
Global Arguments Schedule : clear implicits.

End PIE.

(** ** Observations on a world *)

Section Observations.

Context `{BuildConfig}.

(** The worker behind a handle, when the handle is live and its pointer is
    neither null nor dangling. *)
Definition handle_worker (w : World) (h : Z) : option Worker :=
  handler ← handlers w !! h;
  p ← worker handler;
  c ← workers w !! p;
  Some (object c).

(** A valid worker handle: a live handler whose pointer owns a live worker. *)
Definition valid_handle (w : World) (h p : Z) (c : shared_worker) : Prop :=
  handlers w !! h = Some (Handler (Some p)) ∧
  workers w !! p = Some c ∧
  (0 < use_count c)%nat.

(** What was logged between two worlds of one run. *)
Definition events_since (w w' : World) : list Event :=
  drop (length (trace w)) (trace w').

Context {Error : Type}.

(** What [Query] hands back through its two reference parameters. *)
Definition Query_out (r : result Error) (ctx : Ctx) (key : string) (fw : FragWrapper)
    (cw : option CtxWrapper) (we : result Error) : option CtxWrapper * result Error :=
  if failed r then (cw, r)
  else if negb (String.eqb key EmptyString) then (Some (build key fw ctx), we)
  else (cw, we).

(** What [Query] logs after the call of the AppInvoker. *)
Definition Query_log (r : result Error) (p : Z) (key : string) : list Event :=
  if failed r then []
  else if negb (String.eqb key EmptyString) then [EvGetContext p; EvCtxWrapperBuild key]
  else [].

End Observations.

(** ** A concrete build: label propagation

    The program of section 8 of the specification: every vertex starts with its
    own id as label and adopts the smallest label it hears of, sending a message
    to its neighbours whenever its label changes.  Each partition holds one
    vertex. *)

Module LabelPropagation.

(** The fragment of a partition: its vertex, and the partitions that hold the
    neighbours of that vertex. *)
Record fragment := Frag {
  vid : nat;
  peers : list nat
}.

Definition context : Type := PIE.PIEContext nat nat.

Definition label (f : fragment) (c : context) : nat :=
  default (vid f) (PIE.vdata c !! vid f).

Definition send_all (f : fragment) (x : nat) : list (PIE.Message nat) :=
  (λ d, PIE.Msg d x) <$> peers f.

Definition empty_context : context :=
  {| PIE.vdata := ∅; PIE.incoming := []; PIE.outgoing := [] |}.

Definition Init (f : fragment) (c : context) : context :=
  {| PIE.vdata := {[ vid f := vid f ]}; PIE.incoming := []; PIE.outgoing := [] |}.

Definition PEval (f : fragment) (c : context) : context :=
  {| PIE.vdata := PIE.vdata c; PIE.incoming := [];
     PIE.outgoing := send_all f (label f c) |}.

Definition IncEval (f : fragment) (c : context) : context :=
  let m := foldr Nat.min (label f c) (PIE.incoming c) in
  if (m <? label f c)%nat
  then {| PIE.vdata := <[ vid f := m ]> (PIE.vdata c); PIE.incoming := [];
          PIE.outgoing := send_all f m |}
  else {| PIE.vdata := PIE.vdata c; PIE.incoming := []; PIE.outgoing := [] |}.

Definition partition (v : nat) (ps : list nat) : PIE.Partition fragment nat nat :=
  {| PIE.frag := {| vid := v; peers := ps |}; PIE.ctx := empty_context;
     PIE.populated := false; PIE.rounds := 0 |}.

(** The path 1 - 2 - 3 - 4, one vertex per partition. *)
Definition path4 : list (PIE.Partition fragment nat nat) :=
  [partition 1 [1]; partition 2 [0; 2]; partition 3 [1; 3]; partition 4 [2]]%nat.

(** A transport that delivers sender by sender. *)
Definition in_order : PIE.Schedule nat := λ _ _ l, l.

(** The build of the frame for this program. *)
Definition config : BuildConfig :=
  Build_BuildConfig
    fragment context                       (* Fragment, Ctx *)
    nat nat bool                           (* CommSpec, ParallelEngineSpec, QueryArgs *)
    string (string * string * context)     (* FragWrapper, CtxWrapper *)
    "label_propagation"                    (* MODULE_NAME *)
    Init PEval IncEval
    (λ _, empty_context)                   (* new_context *)
    (λ key fw c, (key, fw, c)).            (* build *)

(** An evaluation for a group of one: the arguments are rejected or the local
    phases run. *)
Definition solo_cycle (init peval inceval : fragment → context → context)
    (f : fragment) (args : bool) (c : context) : result GSError * context :=
  if args then (Ok, peval f (init f c))
  else (Err {| kind := ArgumentError; message := "malformed query arguments" |}, c).

Definition invoker : @Worker config → bool → result GSError * @Worker config :=
  AppInvoker.Query (H := config) solo_cycle.

Definition vertex1 : fragment := {| vid := 1; peers := [] |}.

(** The world after one worker was created in a new process. *)
Definition one_worker : @World config :=
  match CreateWorker (H := config) 0 vertex1 4%nat 2%nat initial_world with
  | Some (_, w) => w
  | None => initial_world
  end.

(** The worker of that world, and the cell that shares it. *)
Definition first_worker : @Worker config :=
  Worker_Init (H := config) 4%nat 2%nat
    (App_CreateWorker (H := config) (App bound_program) vertex1).

Definition first_cell : @shared_worker config := Shared 1 first_worker.

(** The world after a second call of [CreateWorker] in which the registration
    of the module failed. *)
Definition second_worker_unregistered : @World config :=
  match CreateWorker (H := config) (-1) vertex1 4%nat 2%nat one_worker with
  | Some (_, w) => w
  | None => one_worker
  end.

(** The worker that a successful query leaves behind. *)
Definition queried_worker : @Worker config := (invoker first_worker true).2.

(** The world after the first worker was deleted again. *)
Definition no_worker : @World config :=
  match DeleteWorker (H := config) 1 one_worker with
  | Some (_, w) => w
  | None => one_worker
  end.

End LabelPropagation.

(** ** Runs of the frame under any AppInvoker *)

Section Calls.

Context `{BuildConfig} {Error : Type}.

Variable AppInvoker_Query : Worker → QueryArgs → result Error * Worker.

(** One call of an exported entry point that returns, whatever the AppInvoker
    does with the worker. *)
Inductive call_step : World → World → Prop :=
| call_CreateWorker err frag cs ps w h w' :
    CreateWorker err frag cs ps w = Some (h, w') →
    call_step w w'
| call_Query h args key fw cw we w out w' :
    Query AppInvoker_Query h args key fw cw we w = Some (out, w') →
    call_step w w'
| call_DeleteWorker h w w' :
    DeleteWorker h w = Some (tt, w') →
    call_step w w'.

(** The worlds that a new process reaches through such calls. *)
Definition started (w : World) : Prop := rtc call_step initial_world w.

(** The handler at [h] holds a pointer to the worker at [p]. *)
Definition owns (w : World) (h p : Z) : Prop :=
  handlers w !! h = Some (Handler (Some p)).

(** The heap of handlers and the store of workers fit together: no handler
    lives at the null address; every handler points to a live worker that has
    exactly one owner; no two handlers point to the same worker; and every
    worker is pointed to by some handler. *)
Definition heap_sound (w : World) : Prop :=
  handlers w !! NULL = None ∧
  (∀ h hd, handlers w !! h = Some hd →
           ∃ p c, hd = Handler (Some p) ∧ workers w !! p = Some c ∧
                  use_count c = 1%nat) ∧
  (∀ h1 h2 p, owns w h1 p → owns w h2 p → h1 = h2) ∧
  (∀ p c, workers w !! p = Some c → ∃ h, owns w h p).

End Calls.

(** * Properties of the frame *)

(** Runs the monadic glue of an entry point on a symbolic world. *)
Ltac run :=
  cbv [mbind M_bind mret M_ret bind ret emit py_call py_read undefined
       set_handlers set_workers get_handlers get_workers];
  cbn [py handlers workers trace worker use_count object].

Section FrameFacts.

Context `{BuildConfig}.

Lemma fresh_address_not_null {V} (m : gmap Z V) :
  fresh ({[NULL]} ∪ dom m) ≠ NULL.
Proof.
  intros Heq.
  pose proof (is_fresh ({[NULL]} ∪ dom m)) as Hfresh.
  rewrite Heq in Hfresh. set_solver.
Qed.

Lemma fresh_address_unused {V} (m : gmap Z V) :
  m !! fresh ({[NULL]} ∪ dom m) = None.
Proof.
  apply not_elem_of_dom.
  pose proof (is_fresh ({[NULL]} ∪ dom m)) as Hfresh.
  set_solver.
Qed.

Lemma fresh_address_differs {V} (m : gmap Z V) (a : Z) (v : V) :
  m !! a = Some v → fresh ({[NULL]} ∪ dom m) ≠ a.
Proof.
  intros Hlive Heq. pose proof (fresh_address_unused m) as Hnone.
  rewrite Heq in Hnone. congruence.
Qed.

Lemma events_since_app (w w' : World) evs :
  trace w' = trace w ++ evs → events_since w w' = evs.
Proof. unfold events_since. intros ->. apply drop_app_length. Qed.

Lemma restart_initialized name err e :
  0 ≤ err →
  Py.initialized
    (Py.PyImport_ImportModule name
       (Py.Py_Initialize (Py.Py_Finalize (Py.PyImport_AppendInittab name err e)))) = true.
Proof.
  intros Herr. unfold Py.PyImport_AppendInittab.
  destruct (Z.ltb_spec err 0) as [|_]; [lia|].
  unfold Py.PyImport_ImportModule, Py.Py_Initialize, Py.Py_Finalize.
  destruct (Py.initialized e); cbn [Py.initialized Py.inittab andb];
    case_bool_decide; reflexivity.
Qed.

Lemma restart_epoch name err e :
  0 ≤ err →
  Py.epoch
    (Py.PyImport_ImportModule name
       (Py.Py_Initialize (Py.Py_Finalize (Py.PyImport_AppendInittab name err e)))) =
  S (Py.epoch e).
Proof.
  intros Herr. unfold Py.PyImport_AppendInittab.
  destruct (Z.ltb_spec err 0) as [|_]; [lia|].
  unfold Py.PyImport_ImportModule, Py.Py_Initialize, Py.Py_Finalize.
  destruct (Py.initialized e); cbn [Py.initialized Py.inittab Py.epoch andb];
    case_bool_decide; reflexivity.
Qed.

Lemma AppInit_failure err w :
  err < 0 →
  AppInit err w =
  Some (tt, {| py := py w; handlers := handlers w; workers := workers w;
               trace := trace w ++ [EvAppendInittab MODULE_NAME err;
                                    EvPrintf "Cannot initialize Python module...\n"] |}).
Proof.
  intros Herr. unfold AppInit. run.
  unfold Py.PyImport_AppendInittab.
  destruct (Z.ltb_spec err 0) as [_|]; [|lia].
  run. by rewrite <- app_assoc.
Qed.

Lemma AppInit_success err w :
  0 ≤ err →
  AppInit err w =
  Some (tt, {| py := Py.PyImport_ImportModule MODULE_NAME
                       (Py.Py_Initialize
                          (Py.Py_Finalize
                             (Py.PyImport_AppendInittab MODULE_NAME err (py w))));
               handlers := handlers w; workers := workers w;
               trace := trace w ++ EvAppendInittab MODULE_NAME err ::
                        (if Py.initialized (py w) then [EvPyFinalize] else []) ++
                        [EvPyInitialize; EvImportModule MODULE_NAME] |}).
Proof.
  intros Herr. unfold AppInit. run.
  unfold Py.PyImport_AppendInittab.
  destruct (Z.ltb_spec err 0) as [|_]; [lia|].
  run. cbn [Py.Py_IsInitialized Py.initialized].
  destruct (Py.initialized (py w)) eqn:Hup;
    cbn [py handlers workers trace]; repeat rewrite <- app_assoc; reflexivity.
Qed.

(** [AppInit] always returns, touches neither the handlers nor the workers, and
    logs the registration of the module first. *)
Lemma AppInit_returns err w :
  ∃ w1 rest,
    AppInit err w = Some (tt, w1) ∧
    handlers w1 = handlers w ∧ workers w1 = workers w ∧
    trace w1 = trace w ++ EvAppendInittab MODULE_NAME err :: rest.
Proof.
  destruct (Z.lt_ge_cases err 0) as [Hneg|Hpos].
  - eexists _, _. split; [by apply AppInit_failure|]. done.
  - eexists _, _. split; [by apply AppInit_success|]. done.
Qed.

Lemma CreateApp_run err w w1 :
  AppInit err w = Some (tt, w1) →
  CreateApp err w =
  Some (App bound_program,
        {| py := py w1; handlers := handlers w1; workers := workers w1;
           trace := trace w1 ++ [EvSetInitFunction; EvSetPEvalFunction;
                                 EvSetIncEvalFunction; EvMakeApp] |}).
Proof.
  intros Hinit. unfold CreateApp. run. rewrite Hinit. run.
  repeat rewrite <- app_assoc. reflexivity.
Qed.

Lemma CreateWorker_run err frag cs ps w w1 :
  AppInit err w = Some (tt, w1) →
  handlers w1 = handlers w →
  workers w1 = workers w →
  CreateWorker err frag cs ps w =
  Some (fresh ({[NULL]} ∪ dom (handlers w)),
        {| py := py w1;
           handlers := <[fresh ({[NULL]} ∪ dom (handlers w)) :=
                           Handler (Some (fresh ({[NULL]} ∪ dom (workers w))))]>
                         (handlers w);
           workers := <[fresh ({[NULL]} ∪ dom (workers w)) :=
                          Shared 1 (Worker_Init cs ps
                                      (App_CreateWorker (App bound_program) frag))]>
                        (workers w);
           trace := trace w1 ++
                    [EvSetInitFunction; EvSetPEvalFunction; EvSetIncEvalFunction;
                     EvMakeApp;
                     EvNewHandler (fresh ({[NULL]} ∪ dom (handlers w)));
                     EvAppCreateWorker (fresh ({[NULL]} ∪ dom (workers w)));
                     EvWorkerInit (fresh ({[NULL]} ∪ dom (workers w)))] |}).
Proof.
  intros Hinit Hhs Hws. unfold CreateWorker. run.
  rewrite (CreateApp_run _ _ _ Hinit). run. rewrite Hhs, Hws.
  unfold new_worker_handler, make_shared_worker, assign_worker, load_handler,
    shared_release, worker_call. run.
  rewrite lookup_insert_eq. run. rewrite lookup_insert_eq. run.
  rewrite lookup_insert_eq. run. rewrite !insert_insert_eq.
  repeat rewrite <- app_assoc. reflexivity.
Qed.

Lemma DeleteWorker_run h p c w :
  handlers w !! h = Some (Handler (Some p)) →
  workers w !! p = Some c →
  DeleteWorker h w =
  Some (tt, {| py := py w;
               handlers := delete h (handlers w);
               workers := match use_count c with
                          | S (S n) =>
                              <[p := Shared (S n) (Worker_Finalize (object c))]> (workers w)
                          | _ => delete p (workers w)
                          end;
               trace := trace w ++ [EvWorkerFinalize p; EvWorkerReset p;
                                    EvDeleteHandler h] |}).
Proof.
  intros Hh Hp.
  unfold DeleteWorker, reset_worker, delete_handler, load_handler, worker_call,
    shared_release.
  run. rewrite Hh. run. rewrite Hp. run. rewrite Hh. run.
  rewrite lookup_insert_eq. run.
  destruct (use_count c) as [|[|n]]; run;
    rewrite lookup_insert_eq; run;
    rewrite delete_insert_eq; repeat rewrite <- app_assoc;
    rewrite ?insert_insert_eq, ?delete_insert_eq; reflexivity.
Qed.

(** [DeleteWorker] returns only on a handler whose pointer owns a worker. *)
Lemma DeleteWorker_returns_inv h w w' :
  DeleteWorker h w = Some (tt, w') →
  ∃ p c, handlers w !! h = Some (Handler (Some p)) ∧ workers w !! p = Some c.
Proof.
  unfold DeleteWorker, load_handler, worker_call. run.
  destruct (handlers w !! h) as [[[p|]]|] eqn:Hh; run; [|done..].
  destruct (workers w !! p) as [c|] eqn:Hp; run; [|done].
  intros _. by exists p, c.
Qed.

End FrameFacts.

Section QueryFacts.

Context `{BuildConfig} {Error : Type}.

Variable AppInvoker_Query : Worker → QueryArgs → result Error * Worker.

Lemma Query_run h p c args key fw cw we w r obj :
  handlers w !! h = Some (Handler (Some p)) →
  workers w !! p = Some c →
  AppInvoker_Query (object c) args = (r, obj) →
  Query AppInvoker_Query h args key fw cw we w =
  Some (Query_out r (GetContext obj) key fw cw we,
        {| py := py w;
           handlers := handlers w;
           workers := match use_count c with
                      | S n => <[p := Shared (S n) obj]> (workers w)
                      | O => delete p (workers w)
                      end;
           trace := trace w ++ EvAppInvokerQuery p :: Query_log r p key |}).
Proof.
  intros Hh Hp Hq.
  unfold Query, Query_out, Query_log, load_handler, shared_copy, invoke,
    get_context, shared_release.
  run. rewrite Hh. run. rewrite Hp. run. rewrite lookup_insert_eq. run.
  rewrite Hq. run.
  destruct r as [|e]; cbn [failed];
    [destruct (negb (String.eqb key EmptyString))|];
    destruct (use_count c) as [|n];
    repeat (rewrite ?lookup_insert_eq; run);
    rewrite ?insert_insert_eq, ?delete_insert_eq; repeat rewrite <- app_assoc;
    reflexivity.
Qed.

(** [Query] returns only on a handler whose pointer owns a worker. *)
Lemma Query_returns_inv h args key fw cw we w out w' :
  Query AppInvoker_Query h args key fw cw we w = Some (out, w') →
  ∃ p c, handlers w !! h = Some (Handler (Some p)) ∧ workers w !! p = Some c.
Proof.
  unfold Query, load_handler, shared_copy, invoke. run.
  destruct (handlers w !! h) as [[[p|]]|] eqn:Hh; run; [|done..].
  destruct (workers w !! p) as [c|] eqn:Hp; run; [|done].
  intros _. by exists p, c.
Qed.

End QueryFacts.

(** ** The entry points, claim by claim *)

Section EntryPoints.

Context `{BuildConfig}.

Lemma log_ends_with_two (t0 t1 rest : list Event) (a b c d e f g i : Event) :
  t1 = t0 ++ a :: rest →
  t1 ++ [b; c; d; e; f; g; i] = t0 ++ (a :: rest ++ [b; c; d; e; f]) ++ [g; i].
Proof.
  intros ->. rewrite <- !app_assoc. f_equal. simpl. f_equal.
  by rewrite <- app_assoc.
Qed.

(** C1 (amended).  For every fragment, communication-group spec and parallelism
    spec, [CreateWorker] returns a non-null handle to a worker that is bound to
    the App and to the fragment, and it has called the worker's Init on it:
    the call of Init is the last call that [CreateWorker] logs, right after the
    worker was materialized, and the returned worker is in the state [Ready]
    with the communication group attached. *)
Theorem CreateWorker_calls_Init (err : Z) (frag : Fragment) (cs : CommSpec)
    (ps : ParallelEngineSpec) (w : World) :
  ∃ h p wk w' log,
    CreateWorker err frag cs ps w = Some (h, w') ∧
    h ≠ NULL ∧
    valid_handle w' h p (Shared 1 wk) ∧
    app wk = App bound_program ∧
    fragment wk = frag ∧
    lifecycle wk = Ready ∧
    comm wk = Some (cs, ps) ∧
    events_since w w' = log ++ [EvAppCreateWorker p; EvWorkerInit p].
Proof.
  destruct (AppInit_returns err w) as (w1 & rest & Hinit & Hhs & Hws & Htr).
  eexists _, _, _, _, _. split; [exact (CreateWorker_run _ frag cs ps _ _ Hinit Hhs Hws)|].
  split; [apply fresh_address_not_null|].
  split.
  { unfold valid_handle. cbn [handlers workers use_count].
    rewrite !lookup_insert_eq. repeat split. lia. }
  repeat split.
  apply events_since_app. cbn [trace]. by apply log_ends_with_two.
Qed.

(** C4.  For every valid worker handle, [DeleteWorker] returns after exactly
    three calls, in this order: the worker's Finalize, the release of the
    handler's reference to the worker, the deletion of the handler.  Afterwards
    the handler is gone, and the worker is gone with its last owner (another
    owner would keep the finalized worker). *)
Theorem DeleteWorker_finalizes_before_release (h p : Z) (c : shared_worker) (w : World) :
  valid_handle w h p c →
  ∃ w',
    DeleteWorker h w = Some (tt, w') ∧
    events_since w w' = [EvWorkerFinalize p; EvWorkerReset p; EvDeleteHandler h] ∧
    handlers w' !! h = None ∧
    (use_count c = 1%nat → workers w' !! p = None) ∧
    (∀ n, use_count c = S (S n) →
          workers w' !! p = Some (Shared (S n) (Worker_Finalize (object c)))).
Proof.
  intros (Hh & Hp & Hcount).
  eexists. split; [exact (DeleteWorker_run _ _ _ _ Hh Hp)|].
  split; [by apply events_since_app|].
  cbn [handlers workers].
  split; [apply lookup_delete_eq|].
  split.
  - intros ->. apply lookup_delete_eq.
  - intros n ->. apply lookup_insert_eq.
Qed.

(** C6 (amended).  [AppInit] always returns, and after it at most one Python
    interpreter is active.  When the registration of the module succeeded,
    exactly one is active, and it is a new one: an interpreter that was up has
    been finalized before the new one was initialized.  When the registration
    failed, [AppInit] has printed a message and left the runtime as it was. *)
Theorem AppInit_at_most_one_interpreter (err : Z) (w : World) :
  ∃ w',
    AppInit err w = Some (tt, w') ∧
    (Py.active_interpreters (py w') ≤ 1)%nat ∧
    (0 ≤ err →
       Py.active_interpreters (py w') = 1%nat ∧
       Py.epoch (py w') = S (Py.epoch (py w)) ∧
       events_since w w' =
         EvAppendInittab MODULE_NAME err ::
         (if Py.initialized (py w) then [EvPyFinalize] else []) ++
         [EvPyInitialize; EvImportModule MODULE_NAME]) ∧
    (err < 0 →
       py w' = py w ∧
       events_since w w' =
         [EvAppendInittab MODULE_NAME err;
          EvPrintf "Cannot initialize Python module...\n"]).
Proof.
  destruct (Z.lt_ge_cases err 0) as [Hneg|Hpos].
  - eexists. split; [by apply AppInit_failure|]. cbn [py].
    split; [unfold Py.active_interpreters; destruct (Py.initialized (py w)); lia|].
    split; [lia|]. intros _. split; [done|]. by apply events_since_app.
  - eexists. split; [by apply AppInit_success|]. cbn [py].
    unfold Py.active_interpreters. rewrite restart_initialized by done.
    split; [lia|]. split; [|lia]. intros _.
    split; [done|]. split; [by apply restart_epoch|]. by apply events_since_app.
Qed.

(** Cells allocated at unused addresses leave every valid handle valid. *)
Lemma fresh_cells_keep_valid (w : World) (e : Py.env) (x : worker_handler_t)
    (y : shared_worker) (t : list Event) (h1 p1 : Z) (c1 : shared_worker) :
  valid_handle w h1 p1 c1 →
  fresh ({[NULL]} ∪ dom (handlers w)) ≠ h1 ∧
  valid_handle
    {| py := e;
       handlers := <[fresh ({[NULL]} ∪ dom (handlers w)) := x]> (handlers w);
       workers := <[fresh ({[NULL]} ∪ dom (workers w)) := y]> (workers w);
       trace := t |} h1 p1 c1.
Proof.
  intros (Hh & Hp & Hcount). split; [by eapply fresh_address_differs|].
  unfold valid_handle. cbn [handlers workers].
  rewrite !lookup_insert_ne by (by eapply fresh_address_differs). done.
Qed.

(** C7 (amended).  Every call of [CreateWorker] goes through [CreateApp] into
    [AppInit]: the registration of the module is the first call it logs,
    whatever the arguments and the world, and every worker created earlier
    stays live and untouched behind its handle.  What happens to the
    interpreter depends on the registration and on the runtime:
    - the registration succeeds and an interpreter is up: that interpreter is
      finalized and a new one is initialized in its place;
    - the registration succeeds and no interpreter is up: nothing is finalized,
      and a first interpreter is initialized;
    - the registration fails: neither Py_Finalize nor Py_Initialize is called,
      and the runtime, with an interpreter that was up, is left as it was. *)
Theorem second_CreateWorker_restarts_interpreter (err : Z) (frag : Fragment)
    (cs : CommSpec) (ps : ParallelEngineSpec) (w : World) :
  ∃ h2 w' log,
    CreateWorker err frag cs ps w = Some (h2, w') ∧
    events_since w w' = EvAppendInittab MODULE_NAME err :: log ∧
    (∀ h1 p1 c1,
       valid_handle w h1 p1 c1 →
       h2 ≠ h1 ∧ valid_handle w' h1 p1 c1) ∧
    (0 ≤ err →
     Py.initialized (py w) = true →
     (∃ log', log = EvPyFinalize :: EvPyInitialize :: log') ∧
     Py.initialized (py w') = true ∧
     Py.epoch (py w') = S (Py.epoch (py w))) ∧
    (0 ≤ err →
     Py.initialized (py w) = false →
     (∃ log', log = EvPyInitialize :: log') ∧
     (EvPyFinalize ∉ events_since w w') ∧
     Py.initialized (py w') = true ∧
     Py.epoch (py w') = S (Py.epoch (py w))) ∧
    (err < 0 →
     py w' = py w ∧
     (EvPyFinalize ∉ events_since w w') ∧
     (EvPyInitialize ∉ events_since w w')).
Proof.
  destruct (Z.lt_ge_cases err 0) as [Hneg|Hpos].
  - pose proof (CreateWorker_run err frag cs ps w _ (AppInit_failure err w Hneg)
                  eq_refl eq_refl) as Hrun.
    cbn [py trace] in Hrun.
    match type of Hrun with
    | _ = Some (?h, ?W) =>
        assert (events_since w W =
                [EvAppendInittab MODULE_NAME err;
                 EvPrintf "Cannot initialize Python module...\n";
                 EvSetInitFunction; EvSetPEvalFunction; EvSetIncEvalFunction;
                 EvMakeApp;
                 EvNewHandler (fresh ({[NULL]} ∪ dom (handlers w)));
                 EvAppCreateWorker (fresh ({[NULL]} ∪ dom (workers w)));
                 EvWorkerInit (fresh ({[NULL]} ∪ dom (workers w)))]) as Hlog
          by (apply events_since_app; cbn [trace]; by rewrite <- app_assoc);
        exists h, W,
          [EvPrintf "Cannot initialize Python module...\n";
           EvSetInitFunction; EvSetPEvalFunction; EvSetIncEvalFunction;
           EvMakeApp;
           EvNewHandler (fresh ({[NULL]} ∪ dom (handlers w)));
           EvAppCreateWorker (fresh ({[NULL]} ∪ dom (workers w)));
           EvWorkerInit (fresh ({[NULL]} ∪ dom (workers w)))]
    end.
    split; [exact Hrun|]. split; [exact Hlog|].
    split; [intros h1 p1 c1 Hvalid; by apply fresh_cells_keep_valid|].
    split; [lia|]. split; [lia|]. intros _.
    split; [done|]. rewrite Hlog.
    split; rewrite !not_elem_of_cons; repeat split; try discriminate;
      apply not_elem_of_nil.
  - pose proof (CreateWorker_run err frag cs ps w _ (AppInit_success err w Hpos)
                  eq_refl eq_refl) as Hrun.
    cbn [py trace] in Hrun.
    match type of Hrun with
    | _ = Some (?h, ?W) =>
        assert (events_since w W =
                EvAppendInittab MODULE_NAME err ::
                ((if Py.initialized (py w) then [EvPyFinalize] else []) ++
                 [EvPyInitialize; EvImportModule MODULE_NAME]) ++
                [EvSetInitFunction; EvSetPEvalFunction; EvSetIncEvalFunction;
                 EvMakeApp;
                 EvNewHandler (fresh ({[NULL]} ∪ dom (handlers w)));
                 EvAppCreateWorker (fresh ({[NULL]} ∪ dom (workers w)));
                 EvWorkerInit (fresh ({[NULL]} ∪ dom (workers w)))]) as Hlog
          by (apply events_since_app; cbn [trace]; by rewrite <- app_assoc);
        exists h, W,
          (((if Py.initialized (py w) then [EvPyFinalize] else []) ++
            [EvPyInitialize; EvImportModule MODULE_NAME]) ++
           [EvSetInitFunction; EvSetPEvalFunction; EvSetIncEvalFunction;
            EvMakeApp;
            EvNewHandler (fresh ({[NULL]} ∪ dom (handlers w)));
            EvAppCreateWorker (fresh ({[NULL]} ∪ dom (workers w)));
            EvWorkerInit (fresh ({[NULL]} ∪ dom (workers w)))])
    end.
    split; [exact Hrun|]. split; [exact Hlog|].
    split; [intros h1 p1 c1 Hvalid; by apply fresh_cells_keep_valid|].
    cbn [py]. split; [|split; [|lia]].
    + intros _ Hup. rewrite Hup.
      split; [by eexists|].
      split; [by apply restart_initialized|by apply restart_epoch].
    + intros _ Hup. rewrite Hlog, Hup.
      split; [by eexists|].
      split; [|split; [by apply restart_initialized|by apply restart_epoch]].
      simpl. rewrite !not_elem_of_cons. repeat split; try discriminate.
      apply not_elem_of_nil.
Qed.

(** C8.  When the registration of the module fails, [AppInit] prints its
    message and returns with the runtime as it was, so it initializes no
    interpreter; [CreateWorker] goes on all the same: it binds the three
    callbacks and returns a non-null handle to a worker in the state [Ready].
    The handle is all that [CreateWorker] returns. *)
Theorem CreateWorker_hides_AppInit_failure (err : Z) (frag : Fragment)
    (cs : CommSpec) (ps : ParallelEngineSpec) (w : World) :
  err < 0 →
  (∃ w1,
     AppInit err w = Some (tt, w1) ∧
     py w1 = py w ∧
     events_since w w1 =
       [EvAppendInittab MODULE_NAME err;
        EvPrintf "Cannot initialize Python module...\n"]) ∧
  (∃ h p wk w',
     CreateWorker err frag cs ps w = Some (h, w') ∧
     h ≠ NULL ∧
     valid_handle w' h p (Shared 1 wk) ∧
     program (app wk) = bound_program ∧
     all_bound (program (app wk)) = true ∧
     lifecycle wk = Ready ∧
     py w' = py w ∧
     EvPyInitialize ∉ events_since w w').
Proof.
  intros Herr. pose proof (AppInit_failure err w Herr) as Hinit. split.
  - eexists. split; [exact Hinit|]. split; [done|]. by apply events_since_app.
  - eexists _, _, _, _.
    split; [exact (CreateWorker_run _ frag cs ps _ _ Hinit eq_refl eq_refl)|].
    split; [apply fresh_address_not_null|].
    split.
    { unfold valid_handle. cbn [handlers workers use_count].
      rewrite !lookup_insert_eq. repeat split. lia. }
    repeat split.
    erewrite events_since_app; last first.
    { cbn [trace]. rewrite <- app_assoc. reflexivity. }
    simpl. rewrite !not_elem_of_cons. repeat split; try discriminate.
    apply not_elem_of_nil.
Qed.

End EntryPoints.

Section QueryEntryPoint.

Context `{BuildConfig} {Error : Type}.

Variable AppInvoker_Query : Worker → QueryArgs → result Error * Worker.

(** After [Query], the handle leads to the worker as the AppInvoker left it. *)
Lemma worker_after_Query (w : World) h p c obj t :
  valid_handle w h p c →
  handle_worker
    {| py := py w; handlers := handlers w;
       workers := match use_count c with
                  | S n => <[p := Shared (S n) obj]> (workers w)
                  | O => delete p (workers w)
                  end;
       trace := t |} h = Some obj.
Proof.
  intros (Hh & Hp & Hcount). unfold handle_worker. cbn [handlers workers].
  rewrite Hh. cbn. destruct (use_count c) as [|n]; [lia|].
  by rewrite lookup_insert_eq.
Qed.

(** C2.  For every call of [Query] on a valid handle in which the AppInvoker
    succeeds, [Query] returns and leaves the error parameter alone.  With an
    empty key it builds no wrapper: nothing but the AppInvoker is called and
    [ctx_wrapper] keeps the caller's value.  With a non-empty key it assigns to
    [ctx_wrapper] the wrapper built under that key from the context of the
    worker as the worker holds it when [Query] returns. *)
Theorem Query_publishes_under_nonempty_key (h p : Z) (c : shared_worker)
    (args : QueryArgs) (key : string) (fw : FragWrapper)
    (cw : option CtxWrapper) (we : result Error) (w : World) (obj : Worker) :
  valid_handle w h p c →
  AppInvoker_Query (object c) args = (Ok, obj) →
  ∃ cw' w' wk,
    Query AppInvoker_Query h args key fw cw we w = Some ((cw', we), w') ∧
    handle_worker w' h = Some wk ∧
    (key = EmptyString →
       cw' = cw ∧ events_since w w' = [EvAppInvokerQuery p]) ∧
    (key ≠ EmptyString →
       cw' = Some (build key fw (GetContext wk)) ∧
       events_since w w' =
         [EvAppInvokerQuery p; EvGetContext p; EvCtxWrapperBuild key]).
Proof.
  intros Hvalid Hq. pose proof Hvalid as (Hh & Hp & Hcount).
  pose proof (Query_run AppInvoker_Query h p c args key fw cw we w Ok obj Hh Hp Hq)
    as Hrun.
  unfold Query_out, Query_log in Hrun. cbn [failed] in Hrun.
  destruct (String.eqb_spec key EmptyString) as [Hkey|Hkey]; cbn [negb] in Hrun.
  - eexists _, _, obj. split; [exact Hrun|].
    split; [by apply worker_after_Query|].
    split; [|done]. intros _. split; [done|]. by apply events_since_app.
  - eexists _, _, obj. split; [exact Hrun|].
    split; [by apply worker_after_Query|].
    split; [done|]. intros _. split; [done|]. by apply events_since_app.
Qed.

(** C3.  For every call of [Query] on a valid handle in which the AppInvoker
    fails, [Query] returns right after the AppInvoker: the error object goes to
    the caller through [wrapper_error], no context is fetched and no wrapper is
    built, and [ctx_wrapper] keeps the caller's value, whatever the key. *)
Theorem Query_failure_is_returned (h p : Z) (c : shared_worker)
    (args : QueryArgs) (key : string) (fw : FragWrapper)
    (cw : option CtxWrapper) (we : result Error) (w : World)
    (e : Error) (obj : Worker) :
  valid_handle w h p c →
  AppInvoker_Query (object c) args = (Err e, obj) →
  ∃ w',
    Query AppInvoker_Query h args key fw cw we w = Some ((cw, Err e), w') ∧
    events_since w w' = [EvAppInvokerQuery p].
Proof.
  intros (Hh & Hp & Hcount) Hq.
  pose proof (Query_run AppInvoker_Query h p c args key fw cw we w (Err e) obj Hh Hp Hq)
    as Hrun.
  unfold Query_out, Query_log in Hrun. cbn [failed] in Hrun.
  eexists. split; [exact Hrun|]. by apply events_since_app.
Qed.

End QueryEntryPoint.

(** ** Bound callbacks along every run of the frame *)

Section BoundSlots.

Context `{BuildConfig}.

Variable pie_cycle :
  callback → callback → callback → Fragment → QueryArgs → Ctx → result GSError * Ctx.

Lemma all_bound_callbacks (p : CythonPIEProgram) :
  all_bound p = true →
  ∃ init peval inceval, AppInvoker.bound_callbacks p = Some (init, peval, inceval).
Proof.
  unfold all_bound, AppInvoker.bound_callbacks.
  destruct (init_func p) as [i|], (peval_func p) as [pe|], (inceval_func p) as [ie|];
    try (intros Hb; vm_compute in Hb; discriminate).
  intros _. by exists i, pe, ie.
Qed.

Lemma unbound_callbacks (p : CythonPIEProgram) :
  all_bound p = false → AppInvoker.bound_callbacks p = None.
Proof.
  unfold all_bound, AppInvoker.bound_callbacks.
  destruct (init_func p) as [i|], (peval_func p) as [pe|], (inceval_func p) as [ie|];
    try reflexivity.
  intros Hb. vm_compute in Hb. discriminate.
Qed.

Lemma AppInvoker_Query_keeps_app (wk : Worker) (args : QueryArgs) :
  app (AppInvoker.Query pie_cycle wk args).2 = app wk.
Proof.
  unfold AppInvoker.Query.
  destruct (AppInvoker.bound_callbacks (program (app wk))) as [[[i pe] ie]|]; [|done].
  destruct (lifecycle wk); try done.
  by destruct (pie_cycle i pe ie (fragment wk) args (context wk)).
Qed.

Lemma Worker_Finalize_keeps_app (wk : Worker) : app (Worker_Finalize wk) = app wk.
Proof. unfold Worker_Finalize. by destruct (lifecycle wk). Qed.

Lemma programs_bound_initial : programs_bound initial_world.
Proof. intros p c Hp. cbn in Hp. by rewrite lookup_empty in Hp. Qed.

Lemma programs_bound_step (w w' : World) :
  frame_step pie_cycle w w' → programs_bound w → programs_bound w'.
Proof.
  intros Hstep Hinv. destruct Hstep as
    [err frag cs ps w h w' Hrun | h args key fw cw we w out w' Hrun | h w w' Hrun].
  - destruct (AppInit_returns err w) as (w1 & rest & Hinit & Hhs & Hws & _).
    rewrite (CreateWorker_run _ frag cs ps _ _ Hinit Hhs Hws) in Hrun.
    injection Hrun as _ <-. intros q c. cbn [workers].
    rewrite lookup_insert_Some. intros [[_ <-]|[_ Hq]]; [done|by eapply Hinv].
  - destruct (Query_returns_inv _ _ _ _ _ _ _ _ _ _ Hrun) as (p & c & Hh & Hp).
    destruct (AppInvoker.Query pie_cycle (object c) args) as [r obj] eqn:Hq.
    rewrite (Query_run _ _ _ _ _ _ _ _ _ _ _ _ Hh Hp Hq) in Hrun.
    injection Hrun as _ <-. intros q c'. cbn [workers].
    assert (app obj = app (object c)) as Happ.
    { pose proof (AppInvoker_Query_keeps_app (object c) args) as Hk.
      by rewrite Hq in Hk. }
    destruct (use_count c) as [|n].
    + rewrite lookup_delete_Some. intros [_ Hq']. by eapply Hinv.
    + rewrite lookup_insert_Some. intros [[_ <-]|[_ Hq']]; [|by eapply Hinv].
      cbn [object]. rewrite Happ. by eapply Hinv.
  - destruct (DeleteWorker_returns_inv _ _ _ Hrun) as (p & c & Hh & Hp).
    rewrite (DeleteWorker_run _ _ _ _ Hh Hp) in Hrun.
    injection Hrun as <-. intros q c'. cbn [workers].
    destruct (use_count c) as [|[|n]].
    + rewrite lookup_delete_Some. intros [_ Hq']. by eapply Hinv.
    + rewrite lookup_delete_Some. intros [_ Hq']. by eapply Hinv.
    + rewrite lookup_insert_Some. intros [[_ <-]|[_ Hq']]; [|by eapply Hinv].
      cbn [object]. rewrite Worker_Finalize_keeps_app. by eapply Hinv.
Qed.

Lemma reachable_programs_bound (w : World) :
  reachable pie_cycle w → programs_bound w.
Proof.
  unfold reachable. intros Hreach.
  apply (rtc_ind_r (R := frame_step pie_cycle) programs_bound initial_world
           programs_bound_initial); [|done].
  intros y z _ Hstep IH. by eapply programs_bound_step.
Qed.

(** C5.  [CreateApp] binds all three callback slots, in the order Init, PEval,
    IncEval, before it constructs the App.  In every world that the frame
    reaches, the worker behind any handle runs a program with all three slots
    bound, so the AppInvoker finds its three callbacks and never takes the
    branch for an unbound slot.  On a program with a slot that is not bound,
    the AppInvoker fails with a ConfigurationError and leaves the worker as it
    was, whatever the evaluation would have done. *)
Theorem unbound_slot_is_unreachable (w : World) :
  reachable pie_cycle w →
  (∀ err w0, ∃ w1 log,
     CreateApp err w0 = Some (App bound_program, w1) ∧
     all_bound bound_program = true ∧
     events_since w0 w1 =
       log ++ [EvSetInitFunction; EvSetPEvalFunction; EvSetIncEvalFunction; EvMakeApp]) ∧
  (∀ h wk,
     handle_worker w h = Some wk →
     all_bound (program (app wk)) = true ∧
     ∃ init peval inceval,
       AppInvoker.bound_callbacks (program (app wk)) = Some (init, peval, inceval)) ∧
  (∀ wk args,
     all_bound (program (app wk)) = false →
     kind AppInvoker.unbound_slot = ConfigurationError ∧
     ∀ cycle, AppInvoker.Query cycle wk args = (Err AppInvoker.unbound_slot, wk)).
Proof.
  intros Hreach. split; [|split].
  - intros err w0.
    destruct (AppInit_returns err w0) as (w1 & rest & Hinit & _ & _ & Htr).
    eexists _, (EvAppendInittab MODULE_NAME err :: rest).
    split; [exact (CreateApp_run _ _ _ Hinit)|]. split; [done|].
    apply events_since_app. cbn [trace]. rewrite Htr, <- app_assoc. done.
  - intros h wk Hwk. unfold handle_worker in Hwk.
    destruct (handlers w !! h) as [[[p|]]|]; try done. cbn in Hwk.
    destruct (workers w !! p) as [c|] eqn:Hp; [|done]. cbn in Hwk.
    injection Hwk as <-.
    pose proof (reachable_programs_bound w Hreach p c Hp) as Hb.
    split; [done|]. by apply all_bound_callbacks.
  - intros wk args Hb. split; [done|]. intros cycle.
    unfold AppInvoker.Query. by rewrite (unbound_callbacks _ Hb).
Qed.

End BoundSlots.

(** ** The superstep loop of a group *)

Section GroupFacts.

Local Open Scope nat_scope.

Context {Frag VD MD : Type}.

Variables Init PEval IncEval : Frag → PIE.PIEContext VD MD → PIE.PIEContext VD MD.

Implicit Types (g : list (PIE.Partition Frag VD MD)) (sch : PIE.Schedule MD).

Lemma no_pending_spec (p : PIE.Partition Frag VD MD) :
  PIE.no_pending p = true ↔ PIE.outgoing (PIE.ctx p) = [].
Proof. unfold PIE.no_pending. by destruct (PIE.outgoing (PIE.ctx p)). Qed.

(** The group is quiescent exactly when every partition reports no pending
    message. *)
Lemma quiescent_spec g :
  PIE.quiescent g = true ↔ ∀ p, p ∈ g → PIE.outgoing (PIE.ctx p) = [].
Proof.
  unfold PIE.quiescent. induction g as [|q g IH]; cbn [forallb].
  - split; [intros _ p Hp; by apply elem_of_nil in Hp|done].
  - rewrite andb_true_iff, IH, no_pending_spec. split.
    + intros [Hq Hg] p [->|Hp]%elem_of_cons; auto.
    + intros Hall. split; [apply Hall; left|intros p Hp; apply Hall; by right].
Qed.

(** The group is not quiescent exactly when some partition has a message
    pending. *)
Lemma not_quiescent_spec g :
  PIE.quiescent g = false ↔ ∃ p, p ∈ g ∧ PIE.outgoing (PIE.ctx p) ≠ [].
Proof.
  unfold PIE.quiescent. induction g as [|q g IH]; cbn [forallb].
  - split; [done|]. intros (p & Hp & _). by apply elem_of_nil in Hp.
  - rewrite andb_false_iff, IH. split.
    + intros [Hq|(p & Hp & Hout)].
      * exists q. split; [left|]. rewrite <- no_pending_spec. by rewrite Hq.
      * exists p. split; [by right|done].
    + intros (p & [->|Hp]%elem_of_cons & Hout).
      * left. destruct (PIE.no_pending q) eqn:Hq; [|done].
        by apply no_pending_spec in Hq.
      * right. by exists p.
Qed.

Lemma Forall2_imap_self {A B} (P : A → B → Prop) (f : nat → A → B) (l : list A) :
  (∀ i x, P x (f i x)) → Forall2 P l (imap f l).
Proof.
  revert f. induction l as [|x l IH]; intros f Hf; cbn; constructor; [done|].
  apply IH. intros i y. apply Hf.
Qed.

(** Every partition of the group takes part in a superstep. *)
Lemma superstep_rounds sch k g :
  Forall2 (λ p p', PIE.rounds p' = S (PIE.rounds p)) g (PIE.superstep IncEval sch k g).
Proof.
  unfold PIE.superstep, PIE.exchange. rewrite fmap_imap.
  by apply Forall2_imap_self.
Qed.

Lemma run_rounds sch k n g :
  Forall2 (λ p p', PIE.rounds p' = PIE.rounds p + n) g (PIE.run IncEval sch k n g).
Proof.
  revert k g. induction n as [|n IH]; intros k g; cbn [PIE.run].
  - apply Forall_Forall2_diag, Forall_forall. intros p _. lia.
  - eapply Forall2_trans; [|apply superstep_rounds|apply IH].
    cbn. intros p q r -> ->. lia.
Qed.

Lemma superstep_loop_sound sch fuel k g g' :
  PIE.superstep_loop IncEval sch fuel k g = Some g' →
  ∃ n, n ≤ fuel ∧ g' = PIE.run IncEval sch k n g ∧
       PIE.quiescent g' = true ∧
       ∀ j, j < n → PIE.quiescent (PIE.run IncEval sch k j g) = false.
Proof.
  revert k g. induction fuel as [|fuel IH]; intros k g; cbn [PIE.superstep_loop];
    destruct (PIE.quiescent g) eqn:Hq.
  - intros [= <-]. exists 0.
    split; [lia|]. split; [done|]. split; [done|]. intros j Hj. lia.
  - done.
  - intros [= <-]. exists 0.
    split; [lia|]. split; [done|]. split; [done|]. intros j Hj. lia.
  - intros (n & Hn & -> & Hend & Hbefore)%IH. exists (S n).
    split; [lia|]. split; [done|]. split; [done|].
    intros [|j] Hj; cbn [PIE.run]; [done|]. apply Hbefore. lia.
Qed.

Lemma superstep_loop_complete sch fuel k n g :
  n ≤ fuel →
  PIE.quiescent (PIE.run IncEval sch k n g) = true →
  (∀ j, j < n → PIE.quiescent (PIE.run IncEval sch k j g) = false) →
  PIE.superstep_loop IncEval sch fuel k g = Some (PIE.run IncEval sch k n g).
Proof.
  revert k n g. induction fuel as [|fuel IH]; intros k n g Hn Hend Hbefore;
    cbn [PIE.superstep_loop]; destruct (PIE.quiescent g) eqn:Hq.
  - by replace n with 0 by lia.
  - replace n with 0 in Hend by lia. cbn [PIE.run] in Hend. congruence.
  - destruct n as [|n]; [done|]. specialize (Hbefore 0). cbn [PIE.run] in Hbefore.
    rewrite Hbefore in Hq by lia. done.
  - destruct n as [|n]; [cbn [PIE.run] in Hend; congruence|]. cbn [PIE.run] in *.
    apply IH; [lia|done|]. intros j Hj. apply (Hbefore (S j)). lia.
Qed.

(** C9.  The superstep loop ends with a group [g'] exactly when [g'] is the
    group at the first superstep boundary at which the group is quiescent
    (within the bound on the number of supersteps).  Quiescence is the AND of
    the flags of all partitions: the group is quiescent when every partition
    has no pending message, and it is not when some partition has one.  Up to
    the boundary at which the loop ends, every partition has run every
    superstep, so no partition left the loop while a peer had messages
    pending. *)
Theorem loop_ends_at_global_quiescence sch fuel k g g' :
  (PIE.superstep_loop IncEval sch fuel k g = Some g' ↔
   ∃ n, n ≤ fuel ∧ g' = PIE.run IncEval sch k n g ∧
        (∀ p, p ∈ g' → PIE.outgoing (PIE.ctx p) = []) ∧
        (∀ j, j < n →
              ∃ p, p ∈ PIE.run IncEval sch k j g ∧ PIE.outgoing (PIE.ctx p) ≠ []) ∧
        Forall2 (λ p p', PIE.rounds p' = PIE.rounds p + n) g g') ∧
  (PIE.quiescent g = true ↔ ∀ p, p ∈ g → PIE.no_pending p = true) ∧
  (PIE.quiescent g = false ↔ ∃ p, p ∈ g ∧ PIE.no_pending p = false).
Proof.
  split; [|split].
  2:{ rewrite quiescent_spec. by setoid_rewrite no_pending_spec. }
  2:{ rewrite not_quiescent_spec. split; intros (p & Hp & Hout); exists p;
        (split; [done|]); destruct (PIE.no_pending p) eqn:Hflag; try done.
      - by apply no_pending_spec in Hflag.
      - intros Hnil%no_pending_spec. congruence. }
  split.
  - intros (n & Hn & -> & Hend & Hbefore)%superstep_loop_sound. exists n.
    split; [done|]. split; [done|]. split; [by apply quiescent_spec|].
    split; [|apply run_rounds].
    intros j Hj. apply not_quiescent_spec. by apply Hbefore.
  - intros (n & Hn & -> & Hend & Hbefore & _).
    apply superstep_loop_complete; [done|by apply quiescent_spec|].
    intros j Hj. apply not_quiescent_spec. by apply Hbefore.
Qed.

End GroupFacts.

(** ** The label-propagation build, run *)

Section Concrete.

Import LabelPropagation.

Local Open Scope nat_scope.

Lemma one_worker_valid : valid_handle one_worker 1%Z 1%Z first_cell.
Proof. unfold valid_handle. split; [|split]; [vm_compute; reflexivity..|cbn; lia]. Qed.

(** On the path 1 - 2 - 3 - 4 the cycle ends with label 1 on every vertex. *)
Example path4_converges :
  PIE.values <$> PIE.pie_cycle Init PEval IncEval in_order 10 path4 =
  Some [ {[1 := 1]}; {[2 := 1]}; {[3 := 1]}; {[4 := 1]} ].
Proof. vm_compute. reflexivity. Qed.

(** C1, counterexample.  In a new process, the worker that [CreateWorker]
    returns is not in the state [Uninitialized], and Init was called. *)
Lemma CreateWorker_without_Init_fails :
  ¬ (∀ (cfg : BuildConfig) (err : Z) (frag : Fragment) (cs : CommSpec)
       (ps : ParallelEngineSpec) (w : World) (h : Z) (w' : World),
       CreateWorker err frag cs ps w = Some (h, w') →
       lifecycle <$> handle_worker w' h = Some Uninitialized ∧
       ∀ p, EvWorkerInit p ∉ events_since w w').
Proof.
  intros Hclaim.
  destruct (Hclaim config 0%Z vertex1 4 2 initial_world 1%Z one_worker)
    as [Hstate Hlog].
  - vm_compute. reflexivity.
  - apply (Hlog 1%Z). apply (list_elem_of_lookup_2 _ 9). vm_compute. reflexivity.
Qed.

(** C6, counterexample.  In a new process, after a call of [AppInit] in which
    the registration of the module fails, no interpreter is active. *)
Lemma AppInit_exactly_one_interpreter_fails :
  ¬ (∀ (cfg : BuildConfig) (err : Z) (w w' : World),
       AppInit err w = Some (tt, w') →
       Py.active_interpreters (py w') = 1).
Proof.
  intros Hclaim.
  pose proof (Hclaim config (-1)%Z initial_world _
                (AppInit_failure (-1) initial_world eq_refl)) as Hone.
  vm_compute in Hone. discriminate.
Qed.

(** C7, counterexample.  With one worker alive and its interpreter up, a second
    call of [CreateWorker] in which the registration of the module fails
    finalizes nothing: the interpreter of the first worker stays. *)
Lemma second_CreateWorker_always_restarts_fails :
  ¬ (∀ (cfg : BuildConfig) (err : Z) (frag : Fragment) (cs : CommSpec)
       (ps : ParallelEngineSpec) (w : World) (h1 p1 : Z) (c1 : shared_worker)
       (h2 : Z) (w' : World),
       Py.initialized (py w) = true →
       valid_handle w h1 p1 c1 →
       CreateWorker err frag cs ps w = Some (h2, w') →
       EvPyFinalize ∈ events_since w w' ∧
       Py.epoch (py w') ≠ Py.epoch (py w)).
Proof.
  intros Hclaim.
  destruct (Hclaim config (-1)%Z vertex1 4 2 one_worker 1%Z 1%Z first_cell
              2%Z second_worker_unregistered) as [Hfinalize Hepoch].
  - vm_compute. reflexivity.
  - apply one_worker_valid.
  - vm_compute. reflexivity.
  - assert (events_since one_worker second_worker_unregistered =
            [EvAppendInittab "label_propagation" (-1)%Z;
             EvPrintf "Cannot initialize Python module...\n";
             EvSetInitFunction; EvSetPEvalFunction; EvSetIncEvalFunction; EvMakeApp;
             EvNewHandler 2%Z; EvAppCreateWorker 2%Z; EvWorkerInit 2%Z]) as Hlog.
    { vm_compute. reflexivity. }
    rewrite Hlog in Hfinalize.
    repeat (apply elem_of_cons in Hfinalize as [Hfinalize|Hfinalize];
            [discriminate Hfinalize|]).
    by apply elem_of_nil in Hfinalize.
Qed.

(** C2, witness: a query with the key "labels" on the first worker. *)
Lemma Query_publishes_under_nonempty_key_witness :
  valid_handle one_worker 1%Z 1%Z first_cell ∧
  invoker (object first_cell) true = (Ok, queried_worker) ∧
  ∃ cw' w' wk,
    Query (H := config) invoker 1%Z true "labels" "fragment" None Ok one_worker =
      Some ((cw', Ok), w') ∧
    handle_worker w' 1%Z = Some wk ∧
    ("labels" = EmptyString →
       cw' = None ∧ events_since one_worker w' = [EvAppInvokerQuery 1%Z]) ∧
    ("labels" ≠ EmptyString →
       cw' = Some (build (BuildConfig := config) "labels" "fragment" (GetContext wk)) ∧
       events_since one_worker w' =
         [EvAppInvokerQuery 1%Z; EvGetContext 1%Z; EvCtxWrapperBuild "labels"]).
Proof.
  split; [apply one_worker_valid|]. split; [reflexivity|].
  apply (Query_publishes_under_nonempty_key (H := config) invoker 1%Z 1%Z first_cell
           true "labels" "fragment" None Ok one_worker queried_worker).
  - apply one_worker_valid.
  - reflexivity.
Defined.

(** C3, witness: a query with malformed arguments on the first worker. *)
Lemma Query_failure_is_returned_witness :
  valid_handle one_worker 1%Z 1%Z first_cell ∧
  invoker (object first_cell) false =
    (Err {| kind := ArgumentError; message := "malformed query arguments" |},
     first_worker) ∧
  ∃ w',
    Query (H := config) invoker 1%Z false "labels" "fragment" None Ok one_worker =
      Some ((None,
             Err {| kind := ArgumentError; message := "malformed query arguments" |}),
            w') ∧
    events_since one_worker w' = [EvAppInvokerQuery 1%Z].
Proof.
  split; [apply one_worker_valid|]. split; [reflexivity|].
  apply (Query_failure_is_returned (H := config) invoker 1%Z 1%Z first_cell
           false "labels" "fragment" None Ok one_worker _ first_worker).
  - apply one_worker_valid.
  - reflexivity.
Defined.

(** C4, witness: the first worker is deleted. *)
Lemma DeleteWorker_finalizes_before_release_witness :
  valid_handle one_worker 1%Z 1%Z first_cell ∧
  ∃ w',
    DeleteWorker 1%Z one_worker = Some (tt, w') ∧
    events_since one_worker w' =
      [EvWorkerFinalize 1%Z; EvWorkerReset 1%Z; EvDeleteHandler 1%Z] ∧
    handlers w' !! 1%Z = None ∧
    (use_count first_cell = 1 → workers w' !! 1%Z = None) ∧
    (∀ n, use_count first_cell = S (S n) →
          workers w' !! 1%Z = Some (Shared (S n) (Worker_Finalize (object first_cell)))).
Proof.
  split; [apply one_worker_valid|].
  apply (DeleteWorker_finalizes_before_release (H := config) 1%Z 1%Z first_cell
           one_worker).
  apply one_worker_valid.
Defined.

(** C5, witness: the world with the first worker is reached by one call of
    [CreateWorker]. *)
Lemma unbound_slot_is_unreachable_witness :
  reachable (H := config) solo_cycle one_worker ∧
  (∀ err (w0 : World), ∃ w1 log,
     CreateApp (H := config) err w0 = Some (App bound_program, w1) ∧
     all_bound (H := config) bound_program = true ∧
     events_since w0 w1 =
       log ++ [EvSetInitFunction; EvSetPEvalFunction; EvSetIncEvalFunction; EvMakeApp]) ∧
  (∀ h wk,
     handle_worker one_worker h = Some wk →
     all_bound (program (app wk)) = true ∧
     ∃ init peval inceval,
       AppInvoker.bound_callbacks (program (app wk)) = Some (init, peval, inceval)) ∧
  (∀ (wk : @Worker config) (args : bool),
     all_bound (program (app wk)) = false →
     kind AppInvoker.unbound_slot = ConfigurationError ∧
     ∀ cycle, AppInvoker.Query (H := config) cycle wk args =
              (Err AppInvoker.unbound_slot, wk)).
Proof.
  assert (reachable (H := config) solo_cycle one_worker) as Hreach.
  { eapply rtc_l; [|apply rtc_refl].
    apply (step_CreateWorker (H := config) solo_cycle 0%Z vertex1 4 2 initial_world 1%Z).
    vm_compute. reflexivity. }
  split; [exact Hreach|].
  exact (unbound_slot_is_unreachable (H := config) solo_cycle one_worker Hreach).
Defined.

(** C7, witness: a second worker is created, with a successful registration,
    while the first worker is alive. *)
Lemma second_CreateWorker_restarts_interpreter_witness :
  (0 ≤ 0)%Z ∧
  Py.initialized (py one_worker) = true ∧
  valid_handle one_worker 1%Z 1%Z first_cell ∧
  ∃ h2 w' log,
    CreateWorker (H := config) 0%Z vertex1 4 2 one_worker = Some (h2, w') ∧
    events_since one_worker w' =
      EvAppendInittab "label_propagation" 0%Z :: EvPyFinalize :: EvPyInitialize :: log ∧
    Py.initialized (py w') = true ∧
    Py.epoch (py w') = S (Py.epoch (py one_worker)) ∧
    h2 ≠ 1%Z ∧
    valid_handle w' 1%Z 1%Z first_cell.
Proof.
  split; [lia|]. split; [reflexivity|]. split; [apply one_worker_valid|].
  destruct (second_CreateWorker_restarts_interpreter (H := config) 0%Z vertex1 4 2
              one_worker) as (h2 & w' & log & Hrun & Hlog & Hlive & Hrestart & _).
  destruct Hrestart as ((log' & ->) & Hup & Hepoch); [lia|reflexivity|].
  destruct (Hlive 1%Z 1%Z first_cell one_worker_valid) as [Hfresh Hvalid].
  exists h2, w', log'.
  exact (conj Hrun (conj Hlog (conj Hup (conj Hepoch (conj Hfresh Hvalid))))).
Defined.

(** C8, witness: the registration fails in a new process. *)
Lemma CreateWorker_hides_AppInit_failure_witness :
  (-1 < 0)%Z ∧
  (∃ w1,
     AppInit (H := config) (-1)%Z initial_world = Some (tt, w1) ∧
     py w1 = py (initial_world (H := config)) ∧
     events_since initial_world w1 =
       [EvAppendInittab "label_propagation" (-1)%Z;
        EvPrintf "Cannot initialize Python module...\n"]) ∧
  (∃ h p wk w',
     CreateWorker (H := config) (-1)%Z vertex1 4 2 initial_world = Some (h, w') ∧
     h ≠ NULL ∧
     valid_handle w' h p (Shared 1 wk) ∧
     program (app wk) = bound_program ∧
     all_bound (program (app wk)) = true ∧
     lifecycle wk = Ready ∧
     py w' = py (initial_world (H := config)) ∧
     EvPyInitialize ∉ events_since initial_world w').
Proof.
  split; [lia|].
  apply (CreateWorker_hides_AppInit_failure (H := config) (-1)%Z vertex1 4 2
           initial_world).
  lia.
Defined.

(** C9, witness: on the path 1 - 2 - 3 - 4 the loop ends after four supersteps,
    the first boundary at which no partition has a message pending. *)
Lemma loop_ends_at_global_quiescence_witness :
  PIE.superstep_loop IncEval in_order 10 0 (PIE.start Init PEval <$> path4) =
    Some (PIE.run IncEval in_order 0 4 (PIE.start Init PEval <$> path4)) ∧
  ∃ n, n ≤ 10 ∧
       PIE.run IncEval in_order 0 4 (PIE.start Init PEval <$> path4) =
         PIE.run IncEval in_order 0 n (PIE.start Init PEval <$> path4) ∧
       (∀ p, p ∈ PIE.run IncEval in_order 0 4 (PIE.start Init PEval <$> path4) →
             PIE.outgoing (PIE.ctx p) = []) ∧
       (∀ j, j < n →
             ∃ p, p ∈ PIE.run IncEval in_order 0 j (PIE.start Init PEval <$> path4) ∧
                  PIE.outgoing (PIE.ctx p) ≠ []) ∧
       Forall2 (λ p p', PIE.rounds p' = PIE.rounds p + n)
         (PIE.start Init PEval <$> path4)
         (PIE.run IncEval in_order 0 4 (PIE.start Init PEval <$> path4)).
Proof.
  assert (PIE.superstep_loop IncEval in_order 10 0 (PIE.start Init PEval <$> path4) =
          Some (PIE.run IncEval in_order 0 4 (PIE.start Init PEval <$> path4))) as Hloop.
  { vm_compute. reflexivity. }
  split; [exact Hloop|].
  exact (proj1 (proj1 (loop_ends_at_global_quiescence IncEval in_order 10 0
                         (PIE.start Init PEval <$> path4) _)) Hloop).
Defined.

End Concrete.

(** * Lifetimes of handles and workers *)

Section Lifetimes.

Context `{BuildConfig} {Error : Type}.

Variable AppInvoker_Query : Worker → QueryArgs → result Error * Worker.

Lemma DeleteWorker_on_dead_handle (h : Z) (w : World) :
  handlers w !! h = None → DeleteWorker h w = None.
Proof. intros Hh. unfold DeleteWorker, load_handler. run. by rewrite Hh. Qed.

Lemma Query_on_dead_handle (h : Z) args key fw cw we (w : World) :
  handlers w !! h = None → Query AppInvoker_Query h args key fw cw we w = None.
Proof. intros Hh. unfold Query, load_handler. run. by rewrite Hh. Qed.

Lemma heap_sound_initial : heap_sound initial_world.
Proof.
  unfold heap_sound, owns. cbn [initial_world handlers workers].
  split; [apply lookup_empty|].
  split; [intros h hd Hh; by rewrite lookup_empty in Hh|].
  split; [intros h1 h2 p Hh; by rewrite lookup_empty in Hh|].
  intros p c Hp. by rewrite lookup_empty in Hp.
Qed.

Lemma heap_sound_CreateWorker err frag cs ps (w : World) h w' :
  CreateWorker err frag cs ps w = Some (h, w') → heap_sound w → heap_sound w'.
Proof.
  intros Hrun (Hnull & Hown & Hinj & Hcov).
  destruct (AppInit_returns err w) as (w1 & rest & Hinit & Hhs & Hws & _).
  rewrite (CreateWorker_run _ frag cs ps _ _ Hinit Hhs Hws) in Hrun.
  injection Hrun as <- <-. unfold heap_sound, owns in *. cbn [handlers workers].
  split; [rewrite lookup_insert_ne; [done|apply fresh_address_not_null]|].
  split.
  { intros h' hd. rewrite lookup_insert_Some. intros [[<- <-]|[Hne Hh']].
    - eexists _, _. split; [done|]. split; [apply lookup_insert_eq|done].
    - destruct (Hown _ _ Hh') as (p' & c' & -> & Hp' & Hc'). exists p', c'.
      split; [done|]. split; [|done].
      rewrite lookup_insert_ne; [done|by eapply fresh_address_differs]. }
  split.
  { intros h1 h2 q. rewrite !lookup_insert_Some.
    intros [[<- Heq1]|[Hne1 H1]] [[<- Heq2]|[Hne2 H2]].
    - done.
    - injection Heq1 as <-. destruct (Hown _ _ H2) as (p' & c' & [= <-] & Hp' & _).
      by rewrite fresh_address_unused in Hp'.
    - injection Heq2 as <-. destruct (Hown _ _ H1) as (p' & c' & [= <-] & Hp' & _).
      by rewrite fresh_address_unused in Hp'.
    - by eapply Hinj. }
  intros q c. rewrite lookup_insert_Some. intros [[<- _]|[Hne Hq]].
  - eexists. apply lookup_insert_eq.
  - destruct (Hcov _ _ Hq) as (h' & Hh'). exists h'.
    rewrite lookup_insert_ne; [done|by eapply fresh_address_differs].
Qed.

Lemma heap_sound_Query h args key fw cw we (w : World) out w' :
  Query AppInvoker_Query h args key fw cw we w = Some (out, w') →
  heap_sound w → heap_sound w'.
Proof.
  intros Hrun (Hnull & Hown & Hinj & Hcov).
  destruct (Query_returns_inv _ _ _ _ _ _ _ _ _ _ Hrun) as (p & c & Hh & Hp).
  destruct (AppInvoker_Query (object c) args) as [r obj] eqn:Hq.
  rewrite (Query_run _ _ _ _ _ _ _ _ _ _ _ _ Hh Hp Hq) in Hrun.
  injection Hrun as _ <-.
  destruct (Hown _ _ Hh) as (p0 & c0 & [= <-] & Hp0 & Hone).
  rewrite Hp in Hp0. injection Hp0 as <-. rewrite Hone.
  unfold heap_sound, owns in *. cbn [handlers workers].
  split; [done|]. split.
  { intros h' hd Hh'. destruct (Hown _ _ Hh') as (p' & c' & -> & Hp' & Hc').
    destruct (decide (p = p')) as [<-|Hne].
    - eexists _, _. split; [done|]. split; [apply lookup_insert_eq|done].
    - exists p', c'. split; [done|]. split; [|done]. by rewrite lookup_insert_ne. }
  split; [done|].
  intros q c'. rewrite lookup_insert_Some. intros [[<- _]|[_ Hq']].
  - by exists h.
  - by eapply Hcov.
Qed.

Lemma heap_sound_DeleteWorker h (w : World) w' :
  DeleteWorker h w = Some (tt, w') → heap_sound w → heap_sound w'.
Proof.
  intros Hrun (Hnull & Hown & Hinj & Hcov).
  destruct (DeleteWorker_returns_inv _ _ _ Hrun) as (p & c & Hh & Hp).
  rewrite (DeleteWorker_run _ _ _ _ Hh Hp) in Hrun. injection Hrun as <-.
  destruct (Hown _ _ Hh) as (p0 & c0 & [= <-] & Hp0 & Hone).
  rewrite Hp in Hp0. injection Hp0 as <-. rewrite Hone.
  unfold heap_sound, owns in *. cbn [handlers workers].
  split; [apply lookup_delete_None; by right|].
  split.
  { intros h' hd. rewrite lookup_delete_Some. intros [Hne Hh'].
    destruct (Hown _ _ Hh') as (p' & c' & -> & Hp' & Hc'). exists p', c'.
    split; [done|]. split; [|done].
    rewrite lookup_delete_ne; [done|]. intros <-. apply Hne. by eapply Hinj. }
  split.
  { intros h1 h2 q. rewrite !lookup_delete_Some. intros [_ H1] [_ H2].
    by eapply Hinj. }
  intros q c'. rewrite lookup_delete_Some. intros [Hne Hq].
  destruct (Hcov _ _ Hq) as (h' & Hh'). exists h'.
  rewrite lookup_delete_ne; [done|]. intros <-. congruence.
Qed.

(** X1.  Along every sequence of calls of the entry points from the start of
    the process, whatever the AppInvoker does with the workers: no handler
    lives at the null address, every handler points to a live worker that has
    exactly one owner, no two handlers share a worker, and every worker is
    reached from a handler. *)
Theorem started_heap_sound (w : World) :
  started AppInvoker_Query w → heap_sound w.
Proof.
  unfold started. intros Hrun.
  apply (rtc_ind_r (R := call_step AppInvoker_Query) heap_sound initial_world
           heap_sound_initial); [|done].
  intros y z _ Hstep IH.
  destruct Hstep as [err frag cs ps y h z Hcall | h args key fw cw we y out z Hcall
                    | h y z Hcall].
  - by eapply heap_sound_CreateWorker.
  - by eapply heap_sound_Query.
  - by eapply heap_sound_DeleteWorker.
Qed.

(** X3.  [DeleteWorker] undoes [CreateWorker]: on any world, deleting the
    handle that [CreateWorker] has just returned gives back the heap of
    handlers and the store of workers exactly as they were before the worker
    was created.  The Python runtime stays as [CreateWorker] left it:
    [DeleteWorker] makes no call into it. *)
Theorem CreateWorker_DeleteWorker_round_trip (err : Z) (frag : Fragment)
    (cs : CommSpec) (ps : ParallelEngineSpec) (w : World) :
  ∃ h p w1 w2,
    CreateWorker err frag cs ps w = Some (h, w1) ∧
    DeleteWorker h w1 = Some (tt, w2) ∧
    handlers w2 = handlers w ∧
    workers w2 = workers w ∧
    py w2 = py w1 ∧
    events_since w1 w2 = [EvWorkerFinalize p; EvWorkerReset p; EvDeleteHandler h].
Proof.
  destruct (AppInit_returns err w) as (w1 & rest & Hinit & Hhs & Hws & _).
  eexists _, _, _, _.
  split; [exact (CreateWorker_run _ frag cs ps _ _ Hinit Hhs Hws)|].
  split.
  { apply DeleteWorker_run; cbn [handlers workers]; apply lookup_insert_eq. }
  cbn [handlers workers py use_count].
  split; [apply delete_insert_id, fresh_address_unused|].
  split; [apply delete_insert_id, fresh_address_unused|].
  split; [done|]. by apply events_since_app.
Qed.

(** X4.  [DeleteWorker] consumes the handle: after it has returned on a valid
    handle, a second [DeleteWorker] on that handle and every [Query] on it read
    through a pointer to a deleted handler, and neither returns. *)
Theorem handle_is_dead_after_DeleteWorker (h p : Z) (c : shared_worker) (w : World) :
  valid_handle w h p c →
  ∃ w',
    DeleteWorker h w = Some (tt, w') ∧
    DeleteWorker h w' = None ∧
    (∀ args key fw cw we, Query AppInvoker_Query h args key fw cw we w' = None).
Proof.
  intros (Hh & Hp & _). eexists.
  split; [exact (DeleteWorker_run _ _ _ _ Hh Hp)|].
  split.
  - apply DeleteWorker_on_dead_handle. cbn [handlers]. apply lookup_delete_eq.
  - intros. apply Query_on_dead_handle. cbn [handlers]. apply lookup_delete_eq.
Qed.

End Lifetimes.

(** * Calls in sequence *)

Section Sequences.

Context `{BuildConfig} {Error : Type}.

Variable AppInvoker_Query : Worker → QueryArgs → result Error * Worker.

(** X5.  A valid handle can be queried again and again, and the worker is not
    rolled back between queries: the second call of the AppInvoker works on
    the worker as the first call left it, whether the first query succeeded or
    failed.  After both queries the handle is valid as before, with the same
    number of owners, and neither the handlers nor the Python runtime have
    changed. *)
Theorem Query_continues_from_last_Query (h p : Z) (c : shared_worker)
    (args1 args2 : QueryArgs) (key1 key2 : string) (fw1 fw2 : FragWrapper)
    (cw : option CtxWrapper) (we : result Error) (w : World)
    (r1 r2 : result Error) (obj1 obj2 : Worker) :
  valid_handle w h p c →
  AppInvoker_Query (object c) args1 = (r1, obj1) →
  AppInvoker_Query obj1 args2 = (r2, obj2) →
  ∃ out1 out2 w1 w2,
    Query AppInvoker_Query h args1 key1 fw1 cw we w = Some (out1, w1) ∧
    Query AppInvoker_Query h args2 key2 fw2 out1.1 out1.2 w1 = Some (out2, w2) ∧
    out1 = Query_out r1 (GetContext obj1) key1 fw1 cw we ∧
    out2 = Query_out r2 (GetContext obj2) key2 fw2 out1.1 out1.2 ∧
    valid_handle w2 h p (Shared (use_count c) obj2) ∧
    handlers w2 = handlers w ∧
    py w2 = py w ∧
    events_since w w2 =
      (EvAppInvokerQuery p :: Query_log r1 p key1) ++
      (EvAppInvokerQuery p :: Query_log r2 p key2).
Proof.
  intros (Hh & Hp & Hcount) Hq1 Hq2.
  destruct (use_count c) as [|n] eqn:Hn; [lia|].
  pose proof (Query_run AppInvoker_Query h p c args1 key1 fw1 cw we w r1 obj1
                Hh Hp Hq1) as Hrun1.
  rewrite Hn in Hrun1.
  eexists _, _, _, _. split; [exact Hrun1|].
  split.
  { apply (Query_run AppInvoker_Query h p (Shared (S n) obj1)); cbn [handlers workers];
      [exact Hh|apply lookup_insert_eq|exact Hq2]. }
  split; [done|]. split; [done|].
  cbn [handlers workers py use_count trace]. rewrite insert_insert_eq.
  split.
  { unfold valid_handle. cbn [handlers workers use_count].
    rewrite lookup_insert_eq. split; [done|]. split; [done|lia]. }
  split; [done|]. split; [done|].
  apply events_since_app. cbn [trace]. by rewrite <- app_assoc.
Qed.

(** X6.  [Query] never clears the error parameter: when a query fails and the
    caller passes the same two variables to a later query that succeeds, the
    error of the failed query is still in [wrapper_error] after the successful
    one. *)
Theorem earlier_error_survives_successful_Query (h p : Z) (c : shared_worker)
    (args1 args2 : QueryArgs) (key1 key2 : string) (fw1 fw2 : FragWrapper)
    (cw : option CtxWrapper) (we : result Error) (w : World)
    (e : Error) (obj1 obj2 : Worker) :
  valid_handle w h p c →
  AppInvoker_Query (object c) args1 = (Err e, obj1) →
  AppInvoker_Query obj1 args2 = (Ok, obj2) →
  ∃ w1 w2 cw2,
    Query AppInvoker_Query h args1 key1 fw1 cw we w = Some ((cw, Err e), w1) ∧
    Query AppInvoker_Query h args2 key2 fw2 cw (Err e) w1 = Some ((cw2, Err e), w2).
Proof.
  intros (Hh & Hp & Hcount) Hq1 Hq2.
  destruct (use_count c) as [|n] eqn:Hn; [lia|].
  pose proof (Query_run AppInvoker_Query h p c args1 key1 fw1 cw we w (Err e) obj1
                Hh Hp Hq1) as Hrun1.
  rewrite Hn in Hrun1. unfold Query_out in Hrun1. cbn [failed] in Hrun1.
  eexists _, _, (Query_out Ok (GetContext obj2) key2 fw2 cw (Err e)).1.
  split; [exact Hrun1|].
  erewrite (Query_run AppInvoker_Query h p (Shared (S n) obj1));
    [|exact Hh|apply lookup_insert_eq|exact Hq2].
  unfold Query_out. cbn [failed].
  destruct (negb (String.eqb key2 EmptyString)); reflexivity.
Qed.

(** X7.  [CreateWorker] allocates and touches nothing else on the heap: the
    handle it returns is not null and was not in use, every other handler is
    as it was, and every handle that was valid before is valid after, with its
    worker untouched, whether the registration of the module succeeded or
    not. *)
Theorem CreateWorker_leaves_other_handles (err : Z) (frag : Fragment)
    (cs : CommSpec) (ps : ParallelEngineSpec) (w : World) :
  ∃ h w',
    CreateWorker err frag cs ps w = Some (h, w') ∧
    h ≠ NULL ∧
    handlers w !! h = None ∧
    (∀ h', h' ≠ h → handlers w' !! h' = handlers w !! h') ∧
    (∀ h1 p1 c1, valid_handle w h1 p1 c1 → valid_handle w' h1 p1 c1).
Proof.
  destruct (AppInit_returns err w) as (w1 & rest & Hinit & Hhs & Hws & _).
  eexists _, _.
  split; [exact (CreateWorker_run _ frag cs ps _ _ Hinit Hhs Hws)|].
  split; [apply fresh_address_not_null|].
  split; [apply fresh_address_unused|].
  cbn [handlers workers]. split.
  - intros h' Hne. by rewrite lookup_insert_ne.
  - intros h1 p1 c1 (Hh & Hp & Hcount). unfold valid_handle. cbn [handlers workers].
    rewrite !lookup_insert_ne by (by eapply fresh_address_differs). done.
Qed.

Lemma call_step_keeps_interpreter (w w' : World) :
  call_step AppInvoker_Query w w' →
  (Py.initialized (py w) = true → Py.initialized (py w') = true) ∧
  (Py.epoch (py w) ≤ Py.epoch (py w'))%nat.
Proof.
  intros [err frag cs ps w0 h w0' Hrun | h args key fw cw we w0 out w0' Hrun
         | h w0 w0' Hrun].
  - destruct (Z.lt_ge_cases err 0) as [Hneg|Hpos].
    + rewrite (CreateWorker_run err frag cs ps w0 _ (AppInit_failure err w0 Hneg)
                 eq_refl eq_refl) in Hrun.
      injection Hrun as _ <-. cbn [py]. split; [done|lia].
    + rewrite (CreateWorker_run err frag cs ps w0 _ (AppInit_success err w0 Hpos)
                 eq_refl eq_refl) in Hrun.
      injection Hrun as _ <-. cbn [py].
      rewrite restart_initialized, restart_epoch by done. split; [done|lia].
  - destruct (Query_returns_inv _ _ _ _ _ _ _ _ _ _ Hrun) as (p & c & Hh & Hp).
    destruct (AppInvoker_Query (object c) args) as [r obj] eqn:Hq.
    rewrite (Query_run _ _ _ _ _ _ _ _ _ _ _ _ Hh Hp Hq) in Hrun.
    injection Hrun as _ <-. cbn [py]. split; [done|lia].
  - destruct (DeleteWorker_returns_inv _ _ _ Hrun) as (p & c & Hh & Hp).
    rewrite (DeleteWorker_run _ _ _ _ Hh Hp) in Hrun.
    injection Hrun as <-. cbn [py]. split; [done|lia].
Qed.

(** X8.  No entry point of the frame shuts the Python runtime down: once an
    interpreter is up, an interpreter is up after every later sequence of
    calls of [CreateWorker], [Query] and [DeleteWorker], also when every worker
    has been deleted, and the count of interpreters brought up never goes
    down. *)
Theorem interpreter_outlives_workers (w w' : World) :
  rtc (call_step AppInvoker_Query) w w' →
  Py.initialized (py w) = true →
  Py.initialized (py w') = true ∧ (Py.epoch (py w) ≤ Py.epoch (py w'))%nat.
Proof.
  intros Hrun Hup.
  apply (rtc_ind_r (R := call_step AppInvoker_Query)
           (λ z, Py.initialized (py z) = true ∧
                 (Py.epoch (py w) ≤ Py.epoch (py z))%nat) w); [done| |done].
  intros y z _ Hstep [IHup IHepoch].
  destruct (call_step_keeps_interpreter y z Hstep) as [Hkeep Hmono].
  split; [by apply Hkeep|lia].
Qed.

End Sequences.

(** ** The label-propagation build, through its lifetime *)

Section ConcreteLifetimes.

Import LabelPropagation.

Local Open Scope nat_scope.

Lemma one_worker_started : started (H := config) invoker one_worker.
Proof.
  apply rtc_once.
  apply (call_CreateWorker (H := config) invoker 0%Z vertex1 4 2 initial_world 1%Z).
  vm_compute. reflexivity.
Qed.

Lemma no_worker_after_one_worker :
  rtc (call_step (H := config) invoker) one_worker no_worker.
Proof.
  apply rtc_once. apply (call_DeleteWorker (H := config) invoker 1%Z).
  vm_compute. reflexivity.
Qed.

(** X1, witness: the world with the first worker. *)
Lemma started_heap_sound_witness :
  started (H := config) invoker one_worker ∧ heap_sound one_worker.
Proof.
  split; [apply one_worker_started|].
  apply (started_heap_sound (H := config) invoker one_worker).
  apply one_worker_started.
Defined.

(** X4, witness: the first worker is deleted, and its handle is used again. *)
Lemma handle_is_dead_after_DeleteWorker_witness :
  valid_handle one_worker 1%Z 1%Z first_cell ∧
  ∃ w',
    DeleteWorker 1%Z one_worker = Some (tt, w') ∧
    DeleteWorker 1%Z w' = None ∧
    (∀ args key fw cw we,
       Query (H := config) invoker 1%Z args key fw cw we w' = None).
Proof.
  split; [apply one_worker_valid|].
  apply (handle_is_dead_after_DeleteWorker (H := config) invoker 1%Z 1%Z first_cell
           one_worker).
  apply one_worker_valid.
Defined.

(** X5, witness: a query with malformed arguments, then a query that runs. *)
Lemma Query_continues_from_last_Query_witness :
  valid_handle one_worker 1%Z 1%Z first_cell ∧
  invoker (object first_cell) false =
    (Err {| kind := ArgumentError; message := "malformed query arguments" |},
     first_worker) ∧
  invoker first_worker true = (Ok, queried_worker) ∧
  ∃ out1 out2 w1 w2,
    Query (H := config) invoker 1%Z false "" "fragment" None Ok one_worker =
      Some (out1, w1) ∧
    Query (H := config) invoker 1%Z true "labels" "fragment" out1.1 out1.2 w1 =
      Some (out2, w2) ∧
    out1 = Query_out (H := config)
             (Err {| kind := ArgumentError; message := "malformed query arguments" |})
             (GetContext first_worker) "" "fragment" None Ok ∧
    out2 = Query_out (H := config) Ok (GetContext queried_worker) "labels" "fragment"
             out1.1 out1.2 ∧
    valid_handle w2 1%Z 1%Z (Shared (use_count first_cell) queried_worker) ∧
    handlers w2 = handlers one_worker ∧
    py w2 = py one_worker ∧
    events_since one_worker w2 =
      (EvAppInvokerQuery 1%Z ::
       Query_log (Err {| kind := ArgumentError; message := "malformed query arguments" |})
         1%Z "") ++
      (EvAppInvokerQuery 1%Z :: Query_log (Ok (E := GSError)) 1%Z "labels").
Proof.
  split; [apply one_worker_valid|]. split; [reflexivity|]. split; [reflexivity|].
  apply (Query_continues_from_last_Query (H := config) invoker 1%Z 1%Z first_cell
           false true "" "labels" "fragment" "fragment" None Ok one_worker).
  - apply one_worker_valid.
  - reflexivity.
  - reflexivity.
Defined.

(** X6, witness: the error of a query with malformed arguments is still in the
    error parameter after a query that runs. *)
Lemma earlier_error_survives_successful_Query_witness :
  valid_handle one_worker 1%Z 1%Z first_cell ∧
  invoker (object first_cell) false =
    (Err {| kind := ArgumentError; message := "malformed query arguments" |},
     first_worker) ∧
  invoker first_worker true = (Ok, queried_worker) ∧
  ∃ w1 w2 cw2,
    Query (H := config) invoker 1%Z false "labels" "fragment" None Ok one_worker =
      Some ((None,
             Err {| kind := ArgumentError; message := "malformed query arguments" |}),
            w1) ∧
    Query (H := config) invoker 1%Z true "labels" "fragment" None
      (Err {| kind := ArgumentError; message := "malformed query arguments" |}) w1 =
      Some ((cw2,
             Err {| kind := ArgumentError; message := "malformed query arguments" |}),
            w2).
Proof.
  split; [apply one_worker_valid|]. split; [reflexivity|]. split; [reflexivity|].
  apply (earlier_error_survives_successful_Query (H := config) invoker 1%Z 1%Z
           first_cell false true "labels" "labels" "fragment" "fragment" None Ok
           one_worker _ first_worker queried_worker).
  - apply one_worker_valid.
  - reflexivity.
  - reflexivity.
Defined.

(** X8, witness: the first worker is deleted and no worker is left; the
    interpreter that its creation brought up is still up. *)
Lemma interpreter_outlives_workers_witness :
  rtc (call_step (H := config) invoker) one_worker no_worker ∧
  Py.initialized (py one_worker) = true ∧
  workers no_worker = ∅ ∧
  Py.initialized (py no_worker) = true ∧
  Py.epoch (py one_worker) ≤ Py.epoch (py no_worker).
Proof.
  split; [apply no_worker_after_one_worker|]. split; [reflexivity|].
  split; [vm_compute; reflexivity|].
  apply (interpreter_outlives_workers (H := config) invoker one_worker no_worker).
  - apply no_worker_after_one_worker.
  - reflexivity.
Defined.

End ConcreteLifetimes.
